(** * APool: the named connection pools of ASql (src/apool.cpp)

    A shallow embedding of the pool registry and of its acquisition and
    release functions, and the properties of the pool state machine.

    Conventions of the model.
    - C++ [int] is [Z]; signed overflow is undefined in C++ and is not
      modelled.
    - An [ADriver *] is a [nat] (an address). The live driver objects and
      the value each returns from [state()] are kept in [heap]; [delete]
      removes the object. Reading or deleting an address with no object is
      undefined behaviour: the computation has no result ([None]).
    - A [QObject *] is an [option nat]; [objects] is the set of QObjects
      that still exist. A [QPointer] is null when it was built from a null
      pointer or when its object has been destroyed.
    - A [std::function] is an [option nat]: empty, or a named callable.
      A call is recorded as an event. What the callable does afterwards
      (keeping the handle, dropping it, calling the pool again) happens as
      later steps of the environment.
    - A handle [ADatabase] holds a [std::shared_ptr<ADriver>] whose deleter
      is [pushDatabaseBack] with the captured pool name. Each function is
      modelled up to the destruction of its local handle; the deleter runs
      as a step of its own ([Release]) when the last owner lets go, and
      [owned] lists the shared pointers whose deleter has still to run.
    - Logging, [createRawDriver], [delete], [open] and calls of callables
      are recorded, in order, in a list of events. *)

From stdpp Require Import base decidable option list gmap strings.
From Stdlib Require Import ZArith Lia.

Local Open Scope Z_scope.

(** ** Data *)

(** Modelled from the spec: [ADatabase::State] is declared in adatabase.h,
    which is not part of the sources at hand. The spec gives the driver's
    observable state as "{Open, Disconnected, ...}"; [Connected] is the
    spec's "Open", [Connecting] stands for the states in between. The pool
    only ever compares the state with [Disconnected]. *)
Inductive State := Disconnected | Connecting | Connected.

#[global] Instance State_eq_dec : EqDecision State.
Proof. solve_decision. Defined.

(** [std::shared_ptr<ADriver>(driver, [poolName] (ADriver *driver) {
      pushDatabaseBack(poolName, driver); })] *)
Record SharedDriver := {
  ptr : nat;
  deleterPool : string;
}.

#[global] Instance SharedDriver_eq_dec : EqDecision SharedDriver.
Proof. solve_decision. Defined.

(** [ADatabase], as far as the pool touches it: the member [d]. *)
Record ADatabase := {
  d : option SharedDriver;
}.

#[global] Instance ADatabase_eq_dec : EqDecision ADatabase.
Proof. solve_decision. Defined.

(** [std::function<void (ADatabase &)>] *)
Abbreviation Callback := (option nat) (only parsing).

Record APoolQueuedClient := {
  cb : Callback;
  receiver : option nat;
  checkReceiver : bool;
}.

Record APoolInternal := {
  driverFactory : nat;
  pool : list nat;
  connectionQueue : list APoolQueuedClient;
  setupCb : Callback;
  reuseCb : Callback;
  maxIdleConnections : Z;
  maximuConnections : Z;
  connectionCount : Z;
}.

(** The value of a freshly declared [APoolInternal pool;] after
    [pool.driverFactory = factory]. *)
Definition newPool (factory : nat) : APoolInternal := {|
  driverFactory := factory;
  pool := [];
  connectionQueue := [];
  setupCb := None;
  reuseCb := None;
  maxIdleConnections := 1;
  maximuConnections := 0;
  connectionCount := 0;
|}.

Definition set_pool (v : list nat) (p : APoolInternal) : APoolInternal := {|
  driverFactory := driverFactory p; pool := v;
  connectionQueue := connectionQueue p; setupCb := setupCb p;
  reuseCb := reuseCb p; maxIdleConnections := maxIdleConnections p;
  maximuConnections := maximuConnections p;
  connectionCount := connectionCount p |}.

Definition set_connectionQueue (v : list APoolQueuedClient) (p : APoolInternal)
  : APoolInternal := {|
  driverFactory := driverFactory p; pool := pool p;
  connectionQueue := v; setupCb := setupCb p;
  reuseCb := reuseCb p; maxIdleConnections := maxIdleConnections p;
  maximuConnections := maximuConnections p;
  connectionCount := connectionCount p |}.

Definition set_setupCb (v : Callback) (p : APoolInternal) : APoolInternal := {|
  driverFactory := driverFactory p; pool := pool p;
  connectionQueue := connectionQueue p; setupCb := v;
  reuseCb := reuseCb p; maxIdleConnections := maxIdleConnections p;
  maximuConnections := maximuConnections p;
  connectionCount := connectionCount p |}.

Definition set_reuseCb (v : Callback) (p : APoolInternal) : APoolInternal := {|
  driverFactory := driverFactory p; pool := pool p;
  connectionQueue := connectionQueue p; setupCb := setupCb p;
  reuseCb := v; maxIdleConnections := maxIdleConnections p;
  maximuConnections := maximuConnections p;
  connectionCount := connectionCount p |}.

Definition set_maxIdleConnections (v : Z) (p : APoolInternal) : APoolInternal := {|
  driverFactory := driverFactory p; pool := pool p;
  connectionQueue := connectionQueue p; setupCb := setupCb p;
  reuseCb := reuseCb p; maxIdleConnections := v;
  maximuConnections := maximuConnections p;
  connectionCount := connectionCount p |}.

Definition set_maximuConnections (v : Z) (p : APoolInternal) : APoolInternal := {|
  driverFactory := driverFactory p; pool := pool p;
  connectionQueue := connectionQueue p; setupCb := setupCb p;
  reuseCb := reuseCb p; maxIdleConnections := maxIdleConnections p;
  maximuConnections := v;
  connectionCount := connectionCount p |}.

Definition set_connectionCount (v : Z) (p : APoolInternal) : APoolInternal := {|
  driverFactory := driverFactory p; pool := pool p;
  connectionQueue := connectionQueue p; setupCb := setupCb p;
  reuseCb := reuseCb p; maxIdleConnections := maxIdleConnections p;
  maximuConnections := maximuConnections p;
  connectionCount := v |}.

(** ** The world the pool functions run in *)

Record World := {
  (** [static thread_local QHash<QString, APoolInternal> m_connectionPool] *)
  m_connectionPool : gmap string APoolInternal;
  (** the live [ADriver] objects and what [state()] returns for each *)
  heap : gmap nat State;
  (** the number of drivers the factories have made: the next address *)
  allocated : nat;
  (** the QObjects that still exist *)
  objects : gset nat;
  (** shared pointers handed out whose deleter has not run yet *)
  owned : list SharedDriver;
}.

Definition set_m_connectionPool (v : gmap string APoolInternal) (w : World) : World := {|
  m_connectionPool := v; heap := heap w; allocated := allocated w;
  objects := objects w; owned := owned w |}.

Definition set_heap (v : gmap nat State) (w : World) : World := {|
  m_connectionPool := m_connectionPool w; heap := v; allocated := allocated w;
  objects := objects w; owned := owned w |}.

Definition set_allocated (v : nat) (w : World) : World := {|
  m_connectionPool := m_connectionPool w; heap := heap w; allocated := v;
  objects := objects w; owned := owned w |}.

Definition set_objects (v : gset nat) (w : World) : World := {|
  m_connectionPool := m_connectionPool w; heap := heap w; allocated := allocated w;
  objects := v; owned := owned w |}.

Definition set_owned (v : list SharedDriver) (w : World) : World := {|
  m_connectionPool := m_connectionPool w; heap := heap w; allocated := allocated w;
  objects := objects w; owned := v |}.

(** Nothing registered, nothing allocated. *)
Definition initial : World := {|
  m_connectionPool := ∅; heap := ∅; allocated := 0%nat; objects := ∅; owned := [] |}.

(** ** Events *)

Inductive QtMsgType := QtDebugMsg | QtInfoMsg | QtWarningMsg | QtCriticalMsg.

(** The three places where the pool calls a [std::function]. *)
Inductive CallSite := SetupCall | ReuseCall | ClientCall.

Inductive Event :=
| Log (level : QtMsgType) (text : string)
| CreateRawDriver (factory : nat) (driver : nat)
| Delete (driver : nat)
| Call (site : CallSite) (f : nat) (db : ADatabase)
| Open (db : ADatabase).

#[global] Instance QtMsgType_eq_dec : EqDecision QtMsgType.
Proof. solve_decision. Defined.
#[global] Instance CallSite_eq_dec : EqDecision CallSite.
Proof. solve_decision. Defined.
#[global] Instance Event_eq_dec : EqDecision Event.
Proof. solve_decision. Defined.

(** ** A state, trace and failure monad *)

Record Result (A : Type) := mkResult {
  value : A;
  world : World;
  events : list Event;
}.
Arguments mkResult {A} _ _ _.
Arguments value {A} _.
Arguments world {A} _.
Arguments events {A} _.

Definition M (A : Type) : Type := World → option (Result A).

#[global] Instance M_ret : MRet M := λ A a w, Some (mkResult a w []).

#[global] Instance M_bind : MBind M := λ A B k m w,
  match m w with
  | None => None
  | Some r1 =>
      match k (value r1) (world r1) with
      | None => None
      | Some r2 => Some (mkResult (value r2) (world r2) (events r1 ++ events r2))
      end
  end.

Definition undefinedBehaviour {A} : M A := λ _, None.
Definition getWorld : M World := λ w, Some (mkResult w w []).
Definition modify (f : World → World) : M unit := λ w, Some (mkResult tt (f w) []).
Definition emit (e : Event) : M unit := λ w, Some (mkResult tt w [e]).

(** ** Primitive effects *)

Definition qLog (level : QtMsgType) (text : string) : M unit := emit (Log level text).

(** [m_connectionPool.find(name)], with [it != m_connectionPool.end()] as
    [Some]. *)
Definition find (name : string) : M (option APoolInternal) := λ w,
  Some (mkResult (m_connectionPool w !! name) w []).

(** A write through the reference [it.value()]. *)
Definition store (name : string) (p : APoolInternal) : M unit :=
  modify (λ w, set_m_connectionPool (<[name := p]> (m_connectionPool w)) w).

(** [driver->state()] *)
Definition state (driver : nat) : M State := λ w,
  match heap w !! driver with
  | Some st => Some (mkResult st w [])
  | None => None
  end.

(** [delete driver] *)
Definition deleteDriver (driver : nat) : M unit := λ w,
  match heap w !! driver with
  | Some _ => Some (mkResult tt (set_heap (delete driver (heap w)) w) [Delete driver])
  | None => None
  end.

(** [factory->createRawDriver()]: a new driver object at a new address; it
    has not been opened. *)
Definition createRawDriver (factory : nat) : M nat := λ w,
  let driver := allocated w in
  Some (mkResult driver
          (set_allocated (S driver) (set_heap (<[driver := Disconnected]> (heap w)) w))
          [CreateRawDriver factory driver]).

(** [db.d = std::shared_ptr<ADriver>(driver, [poolName] (ADriver *driver) {
      pushDatabaseBack(poolName, driver); })] *)
Definition wrap (poolName : string) (driver : nat) : ADatabase :=
  {| d := Some {| ptr := driver; deleterPool := poolName |} |}.

(** A call [f(db)] of a [std::function]; calling an empty one throws
    [std::bad_function_call], which nothing here catches. *)
Definition call (site : CallSite) (f : Callback) (db : ADatabase) : M unit :=
  match f with
  | Some k => emit (Call site k db)
  | None => undefinedBehaviour
  end.

(** [db.open()] *)
Definition open (db : ADatabase) : M unit := emit (Open db).

(** The end of the scope of a local handle [db]: its shared pointer, if any,
    is from now on in the hands of whoever has a copy (the caller for a
    returned handle, a callable that kept the one it was shown) and its
    deleter is due once the last copy is gone. *)
Definition handOut (db : ADatabase) : M unit :=
  match d db with
  | Some h => modify (λ w, set_owned (h :: owned w) w)
  | None => mret tt
  end.

(** [QPointer::isNull()] for a pointer built from [receiver]. *)
Definition isNull (objs : gset nat) (receiver : option nat) : bool :=
  match receiver with
  | Some o => bool_decide (o ∉ objs)
  | None => true
  end.

(** [if (f)] for a [std::function]. *)
Definition callable (f : Callback) : bool :=
  match f with Some _ => true | None => false end.

(** ** The registry *)

Definition create (factory : nat) (poolName : string) : M unit :=
  it ← find poolName;
  match it with
  | None => store poolName (newPool factory)
  | Some _ =>
      qLog QtWarningMsg "Ignoring addDatabase, connectionName already available"
  end.

Definition addDatabase (factory : nat) (poolName : string) : M unit :=
  create factory poolName.

Definition remove (poolName : string) : M unit :=
  modify (λ w, set_m_connectionPool (delete poolName (m_connectionPool w)) w).

Definition currentConnections (poolName : string) : M Z :=
  it ← find poolName;
  match it with
  | Some iPool => mret (connectionCount iPool)
  | None => mret 0
  end.

(** ** Release: the deleter of every handed-out shared pointer *)

(** The test that makes the loop skip a dequeued client. *)
Definition skipped (objs : gset nat) (client : APoolQueuedClient) : bool :=
  (checkReceiver client && isNull objs (receiver client)) || negb (callable (cb client)).

(** The loop [while (!connectionQueue.isEmpty())]: clients are dequeued from
    the head until one is not skipped. The result is that client and what is
    left of the queue, or [None] when the queue ran empty. *)
Fixpoint dequeueClient (objs : gset nat) (queue : list APoolQueuedClient)
  : option (APoolQueuedClient * list APoolQueuedClient) :=
  match queue with
  | [] => None
  | client :: queue' =>
      if skipped objs client then dequeueClient objs queue'
      else Some (client, queue')
  end.

Definition pushDatabaseBack (connectionName : string) (driver : nat) : M unit :=
  it ← find connectionName;
  match it with
  | Some iPool =>
      st ← state driver;
      if decide (st = Disconnected) then
        qLog QtDebugMsg "Deleting database connection as is not open";;
        deleteDriver driver;;
        store connectionName (set_connectionCount (connectionCount iPool - 1) iPool)
      else
        w ← getWorld;
        match dequeueClient (objects w) (connectionQueue iPool) with
        | Some (client, queue') =>
            store connectionName (set_connectionQueue queue' iPool);;
            let db := wrap connectionName driver in
            call ClientCall (cb client) db;;
            handOut db
        | None =>
            let iPool := set_connectionQueue [] iPool in
            if maxIdleConnections iPool <=? Z.of_nat (length (pool iPool)) then
              qLog QtDebugMsg "Deleting database connection due max idle connections";;
              deleteDriver driver;;
              store connectionName (set_connectionCount (connectionCount iPool - 1) iPool)
            else
              qLog QtDebugMsg "Returning database connection to pool";;
              store connectionName (set_pool (pool iPool ++ [driver]) iPool)
        end
  | None => deleteDriver driver
  end.

(** ** Acquisition *)

(** [QVector::takeLast()] on a vector that is not empty. *)
Definition takeLast (v : list nat) : nat * list nat :=
  (List.last v 0%nat, removelast v).

(** [iPool.maximuConnections && iPool.connectionCount >= iPool.maximuConnections] *)
Definition exhausted (iPool : APoolInternal) : bool :=
  negb (maximuConnections iPool =? 0) && (maximuConnections iPool <=? connectionCount iPool).

(** [if (hook) hook(db)] *)
Definition callIfSet (site : CallSite) (hook : Callback) (db : ADatabase) : M unit :=
  if callable hook then call site hook db else mret tt.

(** [ADatabase APool::database(const QString &poolName)] *)
Definition database (poolName : string) : M ADatabase :=
  it ← find poolName;
  db ← match it with
       | Some iPool =>
           match pool iPool with
           | [] =>
               if exhausted iPool then
                 qLog QtWarningMsg "Maximum number of connections reached";;
                 mret {| d := None |}
               else
                 store poolName (set_connectionCount (connectionCount iPool + 1) iPool);;
                 driver ← createRawDriver (driverFactory iPool);
                 qLog QtDebugMsg "Creating a database connection for pool";;
                 let db := wrap poolName driver in
                 callIfSet SetupCall (setupCb iPool) db;;
                 mret db
           | _ :: _ =>
               qLog QtDebugMsg "Reusing a database connection from pool";;
               let '(driver, rest) := takeLast (pool iPool) in
               store poolName (set_pool rest iPool);;
               let db := wrap poolName driver in
               callIfSet ReuseCall (reuseCb iPool) db;;
               mret db
           end
       | None =>
           qLog QtCriticalMsg "Database pool NOT FOUND";;
           mret {| d := None |}
       end;
  open db;;
  handOut db;;
  mret db.

(** [void APool::database(std::function<void (ADatabase &)> cb,
    QObject *receiver, const QString &poolName)]. The first part yields
    [None] on the early [return] that queues the request, and the handle
    [db] otherwise. *)
Definition databaseCb (cb : Callback) (receiver : option nat) (poolName : string)
  : M unit :=
  it ← find poolName;
  r ← match it with
      | Some iPool =>
          match pool iPool with
          | [] =>
              if exhausted iPool then
                qLog QtInfoMsg "Maximum number of connections reached, queuing";;
                let queued := {| cb := cb; receiver := receiver;
                                 checkReceiver := bool_decide (receiver ≠ None) |} in
                store poolName
                  (set_connectionQueue (connectionQueue iPool ++ [queued]) iPool);;
                mret None
              else
                store poolName (set_connectionCount (connectionCount iPool + 1) iPool);;
                qLog QtDebugMsg "Creating a database connection for pool";;
                driver ← createRawDriver (driverFactory iPool);
                let db := wrap poolName driver in
                callIfSet SetupCall (setupCb iPool) db;;
                mret (Some db)
          | _ :: _ =>
              qLog QtDebugMsg "Reusing a database connection from pool";;
              let '(priv, rest) := takeLast (pool iPool) in
              store poolName (set_pool rest iPool);;
              let db := wrap poolName priv in
              callIfSet ReuseCall (reuseCb iPool) db;;
              mret (Some db)
          end
      | None =>
          qLog QtCriticalMsg "Database pool NOT FOUND";;
          mret (Some {| d := None |})
      end;
  match r with
  | None => mret tt
  | Some db =>
      open db;;
      callIfSet ClientCall cb db;;
      handOut db
  end.

(** ** Configuration *)

Definition setMaxIdleConnections (max : Z) (poolName : string) : M unit :=
  it ← find poolName;
  match it with
  | Some iPool => store poolName (set_maxIdleConnections max iPool)
  | None =>
      qLog QtCriticalMsg
        "Failed to set maximum idle connections: Database pool NOT FOUND"
  end.

Definition setMaxConnections (max : Z) (poolName : string) : M unit :=
  it ← find poolName;
  match it with
  | Some iPool => store poolName (set_maximuConnections max iPool)
  | None =>
      qLog QtCriticalMsg "Failed to set maximum connections: Database pool NOT FOUND"
  end.

Definition setSetupCallback (cb : Callback) (poolName : string) : M unit :=
  it ← find poolName;
  match it with
  | Some iPool => store poolName (set_setupCb cb iPool)
  | None =>
      qLog QtCriticalMsg "Failed to set maximum connections: Database pool NOT FOUND"
  end.

Definition setReuseCallback (cb : Callback) (poolName : string) : M unit :=
  it ← find poolName;
  match it with
  | Some iPool => store poolName (set_reuseCb cb iPool)
  | None =>
      qLog QtCriticalMsg "Failed to set maximum connections: Database pool NOT FOUND"
  end.

Definition setDatabaseMaxIdleConnections (max : Z) (poolName : string) : M unit :=
  setMaxIdleConnections max poolName.

Definition setDatabaseMaximumConnections (max : Z) (poolName : string) : M unit :=
  setMaxConnections max poolName.

(** ** Steps of a program that uses the pool *)

(** What the program and its environment can do, one step at a time: the
    calls into the pool, the deleter of a handed-out shared pointer firing,
    a connection changing state, a QObject coming and going. *)
Inductive Op :=
| Create (factory : nat) (poolName : string)
| Acquire (poolName : string)
| AcquireCb (cb : Callback) (receiver : option nat) (poolName : string)
| Release (h : SharedDriver)
| SetMaxIdle (max : Z) (poolName : string)
| SetMaxTotal (max : Z) (poolName : string)
| SetSetup (cb : Callback) (poolName : string)
| SetReuse (cb : Callback) (poolName : string)
| DriverState (driver : nat) (st : State)
| ObjectCreated (o : nat)
| ObjectDestroyed (o : nat).

Fixpoint removeOne (h : SharedDriver) (l : list SharedDriver) : list SharedDriver :=
  match l with
  | [] => []
  | h' :: l' => if decide (h = h') then l' else h' :: removeOne h l'
  end.

(** The last owner of [h] lets go: the deleter runs, once. *)
Definition release (h : SharedDriver) : M unit := λ w,
  if decide (h ∈ owned w) then
    pushDatabaseBack (deleterPool h) (ptr h) (set_owned (removeOne h (owned w)) w)
  else None.

Definition driverState (driver : nat) (st : State) : M unit := λ w,
  match heap w !! driver with
  | Some _ => Some (mkResult tt (set_heap (<[driver := st]> (heap w)) w) [])
  | None => None
  end.

Definition step (op : Op) : M unit :=
  match op with
  | Create factory poolName => create factory poolName
  | Acquire poolName => database poolName ≫= λ _, mret tt
  | AcquireCb cb receiver poolName => databaseCb cb receiver poolName
  | Release h => release h
  | SetMaxIdle max poolName => setMaxIdleConnections max poolName
  | SetMaxTotal max poolName => setMaxConnections max poolName
  | SetSetup cb poolName => setSetupCallback cb poolName
  | SetReuse cb poolName => setReuseCallback cb poolName
  | DriverState driver st => driverState driver st
  | ObjectCreated o => modify (λ w, set_objects ({[o]} ∪ objects w) w)
  | ObjectDestroyed o => modify (λ w, set_objects (objects w ∖ {[o]}) w)
  end.

(** A configuration step is admitted by the guard [G] or not; every other
    step is always possible. [run G ops] performs the steps in order and has
    no result when a step is refused by [G] or is undefined. *)
Fixpoint run (G : Op → World → bool) (ops : list Op) : M unit :=
  match ops with
  | [] => mret tt
  | op :: ops' => λ w, if G op w then (step op;; run G ops') w else None
  end.

(** No restriction on the configuration steps. *)
Definition anyTime (op : Op) (w : World) : bool := true.

(** [op] sets [maxIdleConnections] of the pool [poolName] below the size its
    idle list has in [w]. *)
Definition lowersMaxIdle (poolName : string) (op : Op) (w : World) : bool :=
  match op with
  | SetMaxIdle max name =>
      bool_decide (name = poolName)
      && match m_connectionPool w !! poolName with
         | Some iPool => max <? Z.of_nat (length (pool iPool))
         | None => false
         end
  | _ => false
  end.

(** [op] sets [maximuConnections] of the pool [poolName] to a nonzero value
    below the [connectionCount] it has in [w]. *)
Definition lowersMaxTotal (poolName : string) (op : Op) (w : World) : bool :=
  match op with
  | SetMaxTotal max name =>
      bool_decide (name = poolName)
      && match m_connectionPool w !! poolName with
         | Some iPool => negb (max =? 0) && (max <? connectionCount iPool)
         | None => false
         end
  | _ => false
  end.

(** The guards of the runs in which one limit of one pool is never lowered
    below use; every other step, on this pool or another, is admitted. *)
Definition sparesMaxIdle (poolName : string) (op : Op) (w : World) : bool :=
  negb (lowersMaxIdle poolName op w).

Definition sparesMaxTotal (poolName : string) (op : Op) (w : World) : bool :=
  negb (lowersMaxTotal poolName op w).

(** ** The three invariants of the spec, for the pool [iPool] registered as
    [poolName] *)

(** The connections of the pool that are checked out: handed-out shared
    pointers whose deleter returns to [poolName]. *)
Definition checkedOut (poolName : string) (w : World) : nat :=
  length (filter (λ h, deleterPool h = poolName) (owned w)).

Definition liveCountInv (poolName : string) (iPool : APoolInternal) (w : World) : Prop :=
  connectionCount iPool = Z.of_nat (length (pool iPool)) + Z.of_nat (checkedOut poolName w).

Definition maxIdleInv (iPool : APoolInternal) : Prop :=
  Z.of_nat (length (pool iPool)) ≤ maxIdleConnections iPool.

Definition maxTotalInv (iPool : APoolInternal) : Prop :=
  maximuConnections iPool = 0 ∨ connectionCount iPool ≤ maximuConnections iPool.

(** The first invariant in every registered pool, together with what keeps
    it true when a name is registered: every handed-out shared pointer
    returns to a registered pool. *)
Definition consistent (w : World) : Prop :=
  (∀ poolName iPool,
     m_connectionPool w !! poolName = Some iPool → liveCountInv poolName iPool w)
  ∧ (∀ h, h ∈ owned w → is_Some (m_connectionPool w !! deleterPool h)).

(** ** The words of the spec *)

(** A valid waiter: its liveness token is not tracked or still alive, and
    its continuation is present. *)
Definition validWaiter (objs : gset nat) (client : APoolQueuedClient) : Prop :=
  (checkReceiver client = false ∨ ∃ o, receiver client = Some o ∧ o ∈ objs)
  ∧ ∃ k, cb client = Some k.

(** The events of calling [f] "if set". *)
Definition calls (site : CallSite) (f : Callback) (db : ADatabase) : list Event :=
  match f with
  | Some k => [Call site k db]
  | None => []
  end.

(** The calls of the setup and reuse hooks among some events. *)
Definition isHookCall (e : Event) : bool :=
  match e with
  | Call SetupCall _ _ | Call ReuseCall _ _ => true
  | _ => false
  end.

Definition hookCalls (es : list Event) : list Event := filter isHookCall es.

(** The hook calls an operation is due, by the spec: the setup hook, if
    set, when an acquisition makes a new driver; the reuse hook, if set, when
    it takes a driver from the idle list; none in any other case. *)
Definition hooksDue (op : Op) (w : World) : list Event :=
  match op with
  | Acquire poolName | AcquireCb _ _ poolName =>
      match m_connectionPool w !! poolName with
      | Some iPool =>
          match pool iPool with
          | [] =>
              if exhausted iPool then []
              else calls SetupCall (setupCb iPool) (wrap poolName (allocated w))
          | _ :: _ =>
              calls ReuseCall (reuseCb iPool)
                (wrap poolName (List.last (pool iPool) 0%nat))
          end
      | None => []
      end
  | _ => []
  end.

(** ** The worlds an acquisition leads to *)

(** The world after a driver was taken from the idle list of [poolName]. *)
Definition reused (poolName : string) (iPool : APoolInternal) (rest : list nat)
    (driver : nat) (w : World) : World :=
  set_owned ({| ptr := driver; deleterPool := poolName |} :: owned w)
    (set_m_connectionPool (<[poolName := set_pool rest iPool]> (m_connectionPool w)) w).

(** The world after a driver was made for [poolName]. *)
Definition created (poolName : string) (iPool : APoolInternal) (w : World) : World :=
  set_owned ({| ptr := allocated w; deleterPool := poolName |} :: owned w)
    (set_allocated (S (allocated w))
       (set_heap (<[allocated w := Disconnected]> (heap w))
          (set_m_connectionPool
             (<[poolName := set_connectionCount (connectionCount iPool + 1) iPool]>
                (m_connectionPool w)) w))).

(** The world after a request was queued at [poolName]. *)
Definition queued (poolName : string) (iPool : APoolInternal)
    (cb : Callback) (receiver : option nat) (w : World) : World :=
  set_m_connectionPool
    (<[poolName :=
         set_connectionQueue
           (connectionQueue iPool
              ++ [{| cb := cb; receiver := receiver;
                     checkReceiver := bool_decide (receiver ≠ None) |}]) iPool]>
       (m_connectionPool w)) w.

(** ** Worlds used as examples *)

Module Examples.

Definition h0 : SharedDriver := {| ptr := 0; deleterPool := "p" |}.

(** A waiter whose receiver (QObject 3) is gone, one without continuation,
    and two that can be served. *)
Definition expired : APoolQueuedClient :=
  {| cb := Some 4%nat; receiver := Some 3%nat; checkReceiver := true |}.
Definition mute : APoolQueuedClient :=
  {| cb := None; receiver := None; checkReceiver := false |}.
Definition first : APoolQueuedClient :=
  {| cb := Some 5%nat; receiver := None; checkReceiver := false |}.
Definition second : APoolQueuedClient :=
  {| cb := Some 6%nat; receiver := None; checkReceiver := false |}.

(** Pool "p" at its limit of one connection, which is checked out. *)
Definition busyPool (queue : list APoolQueuedClient) : APoolInternal :=
  set_connectionCount 1 (set_maximuConnections 1
    (set_connectionQueue queue (newPool 7))).

Definition busy (queue : list APoolQueuedClient) (st : State) : World := {|
  m_connectionPool := {[ "p" := busyPool queue ]};
  heap := {[ 0%nat := st ]};
  allocated := 1;
  objects := ∅;
  owned := [h0] |}.

(** Pool "p" with driver 1 idle and driver 0 checked out. *)
Definition idleOnePool : APoolInternal :=
  set_connectionCount 2 (set_pool [1%nat] (set_reuseCb (Some 9%nat) (newPool 7))).

Definition idleOne : World := {|
  m_connectionPool := {[ "p" := idleOnePool ]};
  heap := {[ 0%nat := Connected; 1%nat := Connected ]};
  allocated := 2;
  objects := ∅;
  owned := [h0] |}.

Definition h1 : SharedDriver := {| ptr := 1; deleterPool := "p" |}.

(** Two connections out; the first comes back and is pooled; [maxIdle] is
    then set to 0; the second comes back. *)
Definition lowerMaxIdle : list Op :=
  [Create 7 "p"; Acquire "p"; Acquire "p";
   DriverState 0 Connected; DriverState 1 Connected;
   Release h0; SetMaxIdle 0 "p"; Release h1].

(** Two connections out; [maxTotal] is then set to 1. *)
Definition lowerMaxTotal : list Op :=
  [Create 7 "p"; Acquire "p"; Acquire "p"; SetMaxTotal 1 "p"].

(** A pool of at most two connections and two idle ones, used by three
    requests. *)
Definition busyDay : list Op :=
  [Create 7 "p"; SetMaxTotal 2 "p"; SetMaxIdle 2 "p";
   Acquire "p"; AcquireCb (Some 5%nat) None "p"; AcquireCb (Some 6%nat) None "p";
   DriverState 0 Connected; DriverState 1 Connected;
   Release h0; Release h1; Release h0].

End Examples.

(** ** Further notions used by the properties *)

(** The pool name a step addresses, if it addresses one. *)
Definition target (op : Op) : option string :=
  match op with
  | Create _ poolName | Acquire poolName | AcquireCb _ _ poolName
  | SetMaxIdle _ poolName | SetMaxTotal _ poolName
  | SetSetup _ poolName | SetReuse _ poolName => Some poolName
  | Release h => Some (deleterPool h)
  | DriverState _ _ | ObjectCreated _ | ObjectDestroyed _ => None
  end.

(** The names a step registers. *)
Definition registers (op : Op) : gset string :=
  match op with
  | Create _ poolName => {[ poolName ]}
  | _ => ∅
  end.

(** No waiter is queued at a pool that has an idle driver. *)
Definition noIdleWhileWaiting (iPool : APoolInternal) : Prop :=
  pool iPool = [] ∨ connectionQueue iPool = [].

(** The drivers on the idle lists of all registered pools. *)
Definition idleDrivers (m : gmap string APoolInternal) : list nat :=
  concat (pool <$> (map_to_list m).*2).

(** Every place that holds a driver: the handed-out shared pointers and the
    idle lists. *)
Definition holders (w : World) : list nat :=
  (ptr <$> owned w) ++ idleDrivers (m_connectionPool w).

(** No driver is held twice, every held driver is a live object, and the
    live objects are below the next fresh address. *)
Definition sound (w : World) : Prop :=
  NoDup (holders w)
  ∧ (∀ driver, driver ∈ holders w → is_Some (heap w !! driver))
  ∧ (∀ driver, is_Some (heap w !! driver) → (driver < allocated w)%nat).

(** The steps a program can take in [w]: it can only let go of a handle it
    holds, and only a live connection changes state. *)
Definition possible (op : Op) (w : World) : Prop :=
  match op with
  | Release h => h ∈ owned w
  | DriverState driver _ => is_Some (heap w !! driver)
  | _ => True
  end.

Module MoreExamples.

(** Pool "p" with driver 1 idle and driver 0 checked out, beside an unused
    pool "q". *)
Definition twoPools : World := {|
  m_connectionPool := {[ "p" := Examples.idleOnePool; "q" := newPool 8 ]};
  heap := {[ 0%nat := Connected; 1%nat := Connected ]};
  allocated := 2;
  objects := ∅;
  owned := [Examples.h0] |}.

(** Pool "q" has two connections out when its maximum is set to 1, and its
    [maxIdle] is set to 0 at the end; pool "p" is used meanwhile and its
    limits are raised. *)
Definition lowerOtherPool : list Op :=
  [Create 7 "p"; Create 8 "q"; Acquire "q"; Acquire "q"; SetMaxTotal 1 "q";
   SetMaxTotal 3 "p"; Acquire "p"; DriverState 2 Connected;
   Release {| ptr := 2; deleterPool := "p" |}; SetMaxIdle 0 "q"].

End MoreExamples.

(** * Properties *)

(** ** Unfolding the monad *)

Ltac unfold_m :=
  unfold find, store, state, deleteDriver, createRawDriver, call, open, handOut,
    qLog, emit, modify, getWorld, undefinedBehaviour, callIfSet;
  unfold mbind, M_bind, mret, M_ret.

(** ** The loop over the waiter queue *)

Lemma isNull_false_iff objs receiver :
  isNull objs receiver = false ↔ ∃ o, receiver = Some o ∧ o ∈ objs.
Proof.
  destruct receiver as [o|]; simpl.
  - rewrite bool_decide_eq_false. split.
    + intros H. exists o. split; [done|]. by apply dec_stable.
    + intros (o' & [= <-] & Ho) Hn. by apply Hn.
  - split; [done|]. by intros (? & ? & _).
Qed.

Lemma callable_true_iff (f : Callback) : callable f = true ↔ ∃ k, f = Some k.
Proof.
  destruct f as [k|]; simpl; split; try done.
  - by exists k.
  - by intros [? ?].
Qed.

Lemma skipped_false_iff objs client :
  skipped objs client = false ↔ validWaiter objs client.
Proof.
  unfold skipped, validWaiter.
  rewrite orb_false_iff, andb_false_iff, negb_false_iff.
  by rewrite isNull_false_iff, callable_true_iff.
Qed.

Lemma skipped_true_iff objs client :
  skipped objs client = true ↔ ¬ validWaiter objs client.
Proof.
  rewrite <- skipped_false_iff. destruct (skipped objs client); split; congruence.
Qed.

Lemma dequeueClient_first objs discarded client queue' :
  Forall (λ c, skipped objs c = true) discarded →
  skipped objs client = false →
  dequeueClient objs (discarded ++ client :: queue') = Some (client, queue').
Proof.
  intros Hd Hc. induction Hd as [|c l Hs _ IH]; simpl.
  - by rewrite Hc.
  - by rewrite Hs.
Qed.

Lemma dequeueClient_none objs queue :
  Forall (λ c, skipped objs c = true) queue →
  dequeueClient objs queue = None.
Proof.
  induction 1 as [|c l Hs _ IH]; simpl; [done|]. by rewrite Hs.
Qed.

(** The loop stops at the first client that is not skipped, whatever the
    queue. *)
Lemma dequeueClient_Some objs queue client queue' :
  dequeueClient objs queue = Some (client, queue') →
  ∃ discarded, queue = discarded ++ client :: queue'
    ∧ Forall (λ c, skipped objs c = true) discarded
    ∧ skipped objs client = false.
Proof.
  induction queue as [|c l IH]; simpl; [done|].
  destruct (skipped objs c) eqn:Hs.
  - intros H. destruct (IH H) as (dis & -> & Hdis & Hc).
    exists (c :: dis). split; [done|]. split; [by constructor|done].
  - intros [= <- <-]. exists []. by repeat split.
Qed.

(** ** The branches of [pushDatabaseBack] *)

Lemma pushDatabaseBack_unregistered connectionName driver w st :
  m_connectionPool w !! connectionName = None →
  heap w !! driver = Some st →
  pushDatabaseBack connectionName driver w
  = Some (mkResult tt (set_heap (delete driver (heap w)) w) [Delete driver]).
Proof.
  intros Hp Hd. unfold pushDatabaseBack. unfold_m. simpl.
  rewrite Hp. simpl. by rewrite Hd.
Qed.

Lemma pushDatabaseBack_disconnected connectionName driver w iPool :
  m_connectionPool w !! connectionName = Some iPool →
  heap w !! driver = Some Disconnected →
  pushDatabaseBack connectionName driver w
  = Some (mkResult tt
      (set_m_connectionPool
         (<[connectionName := set_connectionCount (connectionCount iPool - 1) iPool]>
            (m_connectionPool w))
         (set_heap (delete driver (heap w)) w))
      [Log QtDebugMsg "Deleting database connection as is not open"; Delete driver]).
Proof.
  intros Hp Hd. unfold pushDatabaseBack. unfold_m. simpl.
  rewrite Hp. simpl. rewrite Hd. simpl. by rewrite Hd.
Qed.

Lemma pushDatabaseBack_handoff connectionName driver w iPool st client queue' k :
  m_connectionPool w !! connectionName = Some iPool →
  heap w !! driver = Some st → st ≠ Disconnected →
  dequeueClient (objects w) (connectionQueue iPool) = Some (client, queue') →
  cb client = Some k →
  pushDatabaseBack connectionName driver w
  = Some (mkResult tt
      (set_owned ({| ptr := driver; deleterPool := connectionName |} :: owned w)
         (set_m_connectionPool
            (<[connectionName := set_connectionQueue queue' iPool]> (m_connectionPool w))
            w))
      [Call ClientCall k (wrap connectionName driver)]).
Proof.
  intros Hp Hd Hst Hq Hk. unfold pushDatabaseBack. unfold_m. simpl.
  rewrite Hp. simpl. rewrite Hd. simpl.
  destruct (decide (st = Disconnected)); [done|]. simpl.
  rewrite Hq. simpl. rewrite Hk. reflexivity.
Qed.

Lemma pushDatabaseBack_destroy connectionName driver w iPool st :
  m_connectionPool w !! connectionName = Some iPool →
  heap w !! driver = Some st → st ≠ Disconnected →
  dequeueClient (objects w) (connectionQueue iPool) = None →
  maxIdleConnections iPool ≤ Z.of_nat (length (pool iPool)) →
  pushDatabaseBack connectionName driver w
  = Some (mkResult tt
      (set_m_connectionPool
         (<[connectionName :=
              set_connectionCount (connectionCount iPool - 1)
                (set_connectionQueue [] iPool)]> (m_connectionPool w))
         (set_heap (delete driver (heap w)) w))
      [Log QtDebugMsg "Deleting database connection due max idle connections";
       Delete driver]).
Proof.
  intros Hp Hd Hst Hq Hmax. unfold pushDatabaseBack. unfold_m. simpl.
  rewrite Hp. simpl. rewrite Hd. simpl.
  destruct (decide (st = Disconnected)); [done|]. simpl.
  rewrite Hq. simpl.
  destruct (Z.leb_spec (maxIdleConnections iPool) (Z.of_nat (length (pool iPool))));
    [|lia].
  simpl. by rewrite Hd.
Qed.

Lemma pushDatabaseBack_idle connectionName driver w iPool st :
  m_connectionPool w !! connectionName = Some iPool →
  heap w !! driver = Some st → st ≠ Disconnected →
  dequeueClient (objects w) (connectionQueue iPool) = None →
  Z.of_nat (length (pool iPool)) < maxIdleConnections iPool →
  pushDatabaseBack connectionName driver w
  = Some (mkResult tt
      (set_m_connectionPool
         (<[connectionName :=
              set_pool (pool iPool ++ [driver]) (set_connectionQueue [] iPool)]>
            (m_connectionPool w))
         w)
      [Log QtDebugMsg "Returning database connection to pool"]).
Proof.
  intros Hp Hd Hst Hq Hmax. unfold pushDatabaseBack. unfold_m. simpl.
  rewrite Hp. simpl. rewrite Hd. simpl.
  destruct (decide (st = Disconnected)); [done|]. simpl.
  rewrite Hq. simpl.
  destruct (Z.leb_spec (maxIdleConnections iPool) (Z.of_nat (length (pool iPool))));
    [lia|].
  reflexivity.
Qed.

(** ** The branches of [database] *)

Lemma takeLast_app rest driver : takeLast (rest ++ [driver]) = (driver, rest).
Proof.
  unfold takeLast. by rewrite last_last, removelast_last.
Qed.

Lemma exhausted_false_iff iPool :
  exhausted iPool = false
  ↔ maximuConnections iPool = 0 ∨ connectionCount iPool < maximuConnections iPool.
Proof.
  unfold exhausted.
  destruct (Z.eqb_spec (maximuConnections iPool) 0);
    destruct (Z.leb_spec (maximuConnections iPool) (connectionCount iPool));
    simpl; split; try done; try lia; auto.
Qed.

Lemma exhausted_true_iff iPool :
  exhausted iPool = true
  ↔ maximuConnections iPool ≠ 0 ∧ maximuConnections iPool ≤ connectionCount iPool.
Proof.
  unfold exhausted.
  destruct (Z.eqb_spec (maximuConnections iPool) 0);
    destruct (Z.leb_spec (maximuConnections iPool) (connectionCount iPool));
    simpl; split; try done; try lia.
Qed.

Lemma database_not_found poolName w :
  m_connectionPool w !! poolName = None →
  database poolName w
  = Some (mkResult {| d := None |} w
      [Log QtCriticalMsg "Database pool NOT FOUND"; Open {| d := None |}]).
Proof.
  intros Hp. unfold database. unfold_m. simpl. by rewrite Hp.
Qed.

Lemma database_exhausted poolName w iPool :
  m_connectionPool w !! poolName = Some iPool →
  pool iPool = [] → exhausted iPool = true →
  database poolName w
  = Some (mkResult {| d := None |} w
      [Log QtWarningMsg "Maximum number of connections reached";
       Open {| d := None |}]).
Proof.
  intros Hp Hidle Hex. unfold database. unfold_m. simpl.
  rewrite Hp. simpl. by rewrite Hidle, Hex.
Qed.

Lemma database_create poolName w iPool :
  m_connectionPool w !! poolName = Some iPool →
  pool iPool = [] → exhausted iPool = false →
  database poolName w
  = Some (mkResult (wrap poolName (allocated w)) (created poolName iPool w)
      (CreateRawDriver (driverFactory iPool) (allocated w)
       :: Log QtDebugMsg "Creating a database connection for pool"
       :: calls SetupCall (setupCb iPool) (wrap poolName (allocated w))
       ++ [Open (wrap poolName (allocated w))])).
Proof.
  intros Hp Hidle Hex. unfold database. unfold_m. simpl.
  rewrite Hp. simpl. rewrite Hidle, Hex. simpl.
  by destruct (setupCb iPool).
Qed.

Lemma database_reuse poolName w iPool rest driver :
  m_connectionPool w !! poolName = Some iPool →
  pool iPool = rest ++ [driver] →
  database poolName w
  = Some (mkResult (wrap poolName driver) (reused poolName iPool rest driver w)
      (Log QtDebugMsg "Reusing a database connection from pool"
       :: calls ReuseCall (reuseCb iPool) (wrap poolName driver)
       ++ [Open (wrap poolName driver)])).
Proof.
  intros Hp Hidle. unfold database. unfold_m. simpl.
  rewrite Hp. simpl. rewrite Hidle, last_last, removelast_last.
  destruct (rest ++ [driver]) as [|x l] eqn:Hl; [by destruct rest|]. simpl.
  by destruct (reuseCb iPool).
Qed.

Lemma databaseCb_not_found cb receiver poolName w :
  m_connectionPool w !! poolName = None →
  databaseCb cb receiver poolName w
  = Some (mkResult tt w
      (Log QtCriticalMsg "Database pool NOT FOUND" :: Open {| d := None |}
       :: calls ClientCall cb {| d := None |})).
Proof.
  intros Hp. unfold databaseCb. unfold_m. simpl. rewrite Hp. simpl.
  by destruct cb.
Qed.

Lemma databaseCb_queued cb receiver poolName w iPool :
  m_connectionPool w !! poolName = Some iPool →
  pool iPool = [] → exhausted iPool = true →
  databaseCb cb receiver poolName w
  = Some (mkResult tt (queued poolName iPool cb receiver w)
      [Log QtInfoMsg "Maximum number of connections reached, queuing"]).
Proof.
  intros Hp Hidle Hex. unfold databaseCb. unfold_m. simpl.
  rewrite Hp. simpl. by rewrite Hidle, Hex.
Qed.

Lemma databaseCb_create cb receiver poolName w iPool :
  m_connectionPool w !! poolName = Some iPool →
  pool iPool = [] → exhausted iPool = false →
  databaseCb cb receiver poolName w
  = Some (mkResult tt (created poolName iPool w)
      (Log QtDebugMsg "Creating a database connection for pool"
       :: CreateRawDriver (driverFactory iPool) (allocated w)
       :: calls SetupCall (setupCb iPool) (wrap poolName (allocated w))
       ++ Open (wrap poolName (allocated w))
       :: calls ClientCall cb (wrap poolName (allocated w)))).
Proof.
  intros Hp Hidle Hex. unfold databaseCb. unfold_m. simpl.
  rewrite Hp. simpl. rewrite Hidle, Hex. simpl.
  by destruct (setupCb iPool), cb.
Qed.

Lemma databaseCb_reuse cb receiver poolName w iPool rest driver :
  m_connectionPool w !! poolName = Some iPool →
  pool iPool = rest ++ [driver] →
  databaseCb cb receiver poolName w
  = Some (mkResult tt (reused poolName iPool rest driver w)
      (Log QtDebugMsg "Reusing a database connection from pool"
       :: calls ReuseCall (reuseCb iPool) (wrap poolName driver)
       ++ Open (wrap poolName driver)
       :: calls ClientCall cb (wrap poolName driver))).
Proof.
  intros Hp Hidle. unfold databaseCb. unfold_m. simpl.
  rewrite Hp. simpl. rewrite Hidle, last_last, removelast_last.
  destruct (rest ++ [driver]) as [|x l] eqn:Hl; [by destruct rest|]. simpl.
  by destruct (reuseCb iPool), cb.
Qed.

(** ** Every result of a release or an acquisition is one of the branches *)

Lemma nonempty_snoc {A} (l : list A) : l ≠ [] → ∃ rest x, l = rest ++ [x].
Proof.
  destruct l as [|y l] using rev_ind; [done|]. intros _. by exists l, y.
Qed.

Lemma pushDatabaseBack_cases connectionName driver w r :
  pushDatabaseBack connectionName driver w = Some r →
  ∃ st, heap w !! driver = Some st ∧
  match m_connectionPool w !! connectionName with
  | None => r = mkResult tt (set_heap (delete driver (heap w)) w) [Delete driver]
  | Some iPool =>
      if decide (st = Disconnected) then
        r = mkResult tt
              (set_m_connectionPool
                 (<[connectionName :=
                      set_connectionCount (connectionCount iPool - 1) iPool]>
                    (m_connectionPool w))
                 (set_heap (delete driver (heap w)) w))
              [Log QtDebugMsg "Deleting database connection as is not open";
               Delete driver]
      else
        match dequeueClient (objects w) (connectionQueue iPool) with
        | Some (client, queue') =>
            ∃ k, cb client = Some k ∧
            r = mkResult tt
                  (set_owned
                     ({| ptr := driver; deleterPool := connectionName |} :: owned w)
                     (set_m_connectionPool
                        (<[connectionName := set_connectionQueue queue' iPool]>
                           (m_connectionPool w)) w))
                  [Call ClientCall k (wrap connectionName driver)]
        | None =>
            if decide (maxIdleConnections iPool ≤ Z.of_nat (length (pool iPool))) then
              r = mkResult tt
                    (set_m_connectionPool
                       (<[connectionName :=
                            set_connectionCount (connectionCount iPool - 1)
                              (set_connectionQueue [] iPool)]> (m_connectionPool w))
                       (set_heap (delete driver (heap w)) w))
                    [Log QtDebugMsg
                       "Deleting database connection due max idle connections";
                     Delete driver]
            else
              r = mkResult tt
                    (set_m_connectionPool
                       (<[connectionName :=
                            set_pool (pool iPool ++ [driver])
                              (set_connectionQueue [] iPool)]> (m_connectionPool w))
                       w)
                    [Log QtDebugMsg "Returning database connection to pool"]
        end
  end.
Proof.
  intros Hr.
  destruct (heap w !! driver) as [st|] eqn:Hd.
  2:{ exfalso. revert Hr. unfold pushDatabaseBack. unfold_m. simpl.
      destruct (m_connectionPool w !! connectionName); simpl; by rewrite Hd. }
  exists st. split; [done|].
  destruct (m_connectionPool w !! connectionName) as [iPool|] eqn:Hp.
  2:{ rewrite (pushDatabaseBack_unregistered _ _ _ st) in Hr by done. congruence. }
  destruct (decide (st = Disconnected)) as [->|Hst].
  { rewrite (pushDatabaseBack_disconnected _ _ _ iPool) in Hr by done. congruence. }
  destruct (dequeueClient (objects w) (connectionQueue iPool))
    as [[client queue']|] eqn:Hq.
  - destruct (dequeueClient_Some _ _ _ _ Hq) as (_ & _ & _ & Hv).
    apply skipped_false_iff in Hv as [_ [k Hk]]. exists k. split; [done|].
    rewrite (pushDatabaseBack_handoff _ _ _ iPool st client queue' k) in Hr by done.
    congruence.
  - destruct (decide (maxIdleConnections iPool ≤ Z.of_nat (length (pool iPool)))).
    + rewrite (pushDatabaseBack_destroy _ _ _ iPool st) in Hr by done. congruence.
    + rewrite (pushDatabaseBack_idle _ _ _ iPool st) in Hr by (done || lia).
      congruence.
Qed.

Lemma database_cases poolName w r :
  database poolName w = Some r →
  match m_connectionPool w !! poolName with
  | None =>
      r = mkResult {| d := None |} w
            [Log QtCriticalMsg "Database pool NOT FOUND"; Open {| d := None |}]
  | Some iPool =>
      if decide (pool iPool = []) then
        if exhausted iPool then
          r = mkResult {| d := None |} w
                [Log QtWarningMsg "Maximum number of connections reached";
                 Open {| d := None |}]
        else
          r = mkResult (wrap poolName (allocated w)) (created poolName iPool w)
                (CreateRawDriver (driverFactory iPool) (allocated w)
                 :: Log QtDebugMsg "Creating a database connection for pool"
                 :: calls SetupCall (setupCb iPool) (wrap poolName (allocated w))
                 ++ [Open (wrap poolName (allocated w))])
      else
        ∃ rest driver, pool iPool = rest ++ [driver] ∧
        r = mkResult (wrap poolName driver) (reused poolName iPool rest driver w)
              (Log QtDebugMsg "Reusing a database connection from pool"
               :: calls ReuseCall (reuseCb iPool) (wrap poolName driver)
               ++ [Open (wrap poolName driver)])
  end.
Proof.
  intros Hr.
  destruct (m_connectionPool w !! poolName) as [iPool|] eqn:Hp.
  2:{ rewrite database_not_found in Hr by done. congruence. }
  destruct (decide (pool iPool = [])) as [Hidle|Hidle].
  - destruct (exhausted iPool) eqn:Hex.
    + rewrite (database_exhausted _ _ iPool) in Hr by done. congruence.
    + rewrite (database_create _ _ iPool) in Hr by done. congruence.
  - destruct (nonempty_snoc _ Hidle) as (rest & driver & Hl).
    exists rest, driver. split; [done|].
    rewrite (database_reuse _ _ iPool rest driver) in Hr by done. congruence.
Qed.

Lemma databaseCb_cases cb receiver poolName w r :
  databaseCb cb receiver poolName w = Some r →
  match m_connectionPool w !! poolName with
  | None =>
      r = mkResult tt w
            (Log QtCriticalMsg "Database pool NOT FOUND" :: Open {| d := None |}
             :: calls ClientCall cb {| d := None |})
  | Some iPool =>
      if decide (pool iPool = []) then
        if exhausted iPool then
          r = mkResult tt (queued poolName iPool cb receiver w)
                [Log QtInfoMsg "Maximum number of connections reached, queuing"]
        else
          r = mkResult tt (created poolName iPool w)
                (Log QtDebugMsg "Creating a database connection for pool"
                 :: CreateRawDriver (driverFactory iPool) (allocated w)
                 :: calls SetupCall (setupCb iPool) (wrap poolName (allocated w))
                 ++ Open (wrap poolName (allocated w))
                 :: calls ClientCall cb (wrap poolName (allocated w)))
      else
        ∃ rest driver, pool iPool = rest ++ [driver] ∧
        r = mkResult tt (reused poolName iPool rest driver w)
              (Log QtDebugMsg "Reusing a database connection from pool"
               :: calls ReuseCall (reuseCb iPool) (wrap poolName driver)
               ++ Open (wrap poolName driver)
               :: calls ClientCall cb (wrap poolName driver))
  end.
Proof.
  intros Hr.
  destruct (m_connectionPool w !! poolName) as [iPool|] eqn:Hp.
  2:{ rewrite databaseCb_not_found in Hr by done. congruence. }
  destruct (decide (pool iPool = [])) as [Hidle|Hidle].
  - destruct (exhausted iPool) eqn:Hex.
    + rewrite (databaseCb_queued _ _ _ _ iPool) in Hr by done. congruence.
    + rewrite (databaseCb_create _ _ _ _ iPool) in Hr by done. congruence.
  - destruct (nonempty_snoc _ Hidle) as (rest & driver & Hl).
    exists rest, driver. split; [done|].
    rewrite (databaseCb_reuse _ _ _ _ iPool rest driver) in Hr by done. congruence.
Qed.

(** ** Release *)

(** C1. A connected driver released into a registered pool whose queue holds
    a valid waiter goes to the earliest valid waiter: the waiters before it,
    none of them valid, are dequeued and dropped, the continuation [k] of
    that waiter is called with a new handle around the same driver whose
    deleter returns to the same pool, and this call is all that happens. The
    pool keeps its idle list and its [connectionCount]; only the queue
    changes, to what followed the served waiter. The driver is not
    deleted. *)
Theorem release_hands_driver_to_first_valid_waiter
    connectionName driver w iPool st discarded client queue' :
  m_connectionPool w !! connectionName = Some iPool →
  heap w !! driver = Some st → st ≠ Disconnected →
  connectionQueue iPool = discarded ++ client :: queue' →
  Forall (λ c, ¬ validWaiter (objects w) c) discarded →
  validWaiter (objects w) client →
  ∃ k r iPool',
    cb client = Some k
    ∧ pushDatabaseBack connectionName driver w = Some r
    ∧ events r = [Call ClientCall k (wrap connectionName driver)]
    ∧ d (wrap connectionName driver)
      = Some {| ptr := driver; deleterPool := connectionName |}
    ∧ m_connectionPool (world r) = <[connectionName := iPool']> (m_connectionPool w)
    ∧ iPool' = set_connectionQueue queue' iPool
    ∧ connectionQueue iPool' = queue'
    ∧ pool iPool' = pool iPool
    ∧ connectionCount iPool' = connectionCount iPool
    ∧ heap (world r) = heap w
    ∧ owned (world r) = {| ptr := driver; deleterPool := connectionName |} :: owned w.
Proof.
  intros Hp Hd Hst Hq Hdis Hv.
  destruct (Hv) as [_ [k Hk]].
  exists k. eexists. exists (set_connectionQueue queue' iPool).
  split; [done|]. split.
  - apply pushDatabaseBack_handoff with (st := st) (client := client); try done.
    rewrite Hq. apply dequeueClient_first.
    + eapply Forall_impl; [exact Hdis|]. intros c Hc. by apply skipped_true_iff.
    + by apply skipped_false_iff.
  - by repeat split.
Qed.

(** C4. A connected driver released into a registered pool whose queue holds
    no valid waiter: when the idle list has [maxIdleConnections] entries or
    more, the driver is deleted and [connectionCount] goes down by one;
    otherwise the driver is appended to the idle list, is not deleted, and
    [connectionCount] stays. Either way the queue ends up empty. *)
Theorem release_without_waiter_pools_or_destroys
    connectionName driver w iPool st :
  m_connectionPool w !! connectionName = Some iPool →
  heap w !! driver = Some st → st ≠ Disconnected →
  Forall (λ c, ¬ validWaiter (objects w) c) (connectionQueue iPool) →
  ∃ r iPool',
    pushDatabaseBack connectionName driver w = Some r
    ∧ m_connectionPool (world r) = <[connectionName := iPool']> (m_connectionPool w)
    ∧ connectionQueue iPool' = []
    ∧ owned (world r) = owned w
    ∧ if decide (maxIdleConnections iPool ≤ Z.of_nat (length (pool iPool))) then
        events r
        = [Log QtDebugMsg "Deleting database connection due max idle connections";
           Delete driver]
        ∧ heap (world r) = delete driver (heap w)
        ∧ connectionCount iPool' = connectionCount iPool - 1
        ∧ pool iPool' = pool iPool
      else
        events r = [Log QtDebugMsg "Returning database connection to pool"]
        ∧ heap (world r) = heap w
        ∧ connectionCount iPool' = connectionCount iPool
        ∧ pool iPool' = pool iPool ++ [driver].
Proof.
  intros Hp Hd Hst Hq.
  assert (dequeueClient (objects w) (connectionQueue iPool) = None) as Hnone.
  { apply dequeueClient_none. eapply Forall_impl; [exact Hq|].
    intros c Hc. by apply skipped_true_iff. }
  destruct (decide (maxIdleConnections iPool ≤ Z.of_nat (length (pool iPool))))
    as [Hfull|Hroom].
  - eexists. eexists. split.
    + by apply pushDatabaseBack_destroy with (st := st).
    + by repeat split.
  - eexists. eexists. split.
    + apply pushDatabaseBack_idle with (st := st); try done. lia.
    + by repeat split.
Qed.

(** C5. A driver released into a registered pool while its state is
    [Disconnected] is deleted and [connectionCount] goes down by one, and
    that is all: no continuation is called, and the queue, the idle list and
    every other field of the pool stay as they were. *)
Theorem release_of_disconnected_driver_destroys_it
    connectionName driver w iPool :
  m_connectionPool w !! connectionName = Some iPool →
  heap w !! driver = Some Disconnected →
  ∃ r iPool',
    pushDatabaseBack connectionName driver w = Some r
    ∧ events r
      = [Log QtDebugMsg "Deleting database connection as is not open"; Delete driver]
    ∧ heap (world r) = delete driver (heap w)
    ∧ m_connectionPool (world r) = <[connectionName := iPool']> (m_connectionPool w)
    ∧ iPool' = set_connectionCount (connectionCount iPool - 1) iPool
    ∧ connectionCount iPool' = connectionCount iPool - 1
    ∧ connectionQueue iPool' = connectionQueue iPool
    ∧ pool iPool' = pool iPool
    ∧ owned (world r) = owned w.
Proof.
  intros Hp Hd. eexists. eexists. split.
  - by apply pushDatabaseBack_disconnected.
  - by repeat split.
Qed.

(** C6. A driver released under a pool name that is not registered (the
    state [remove] leaves behind) is deleted and nothing else changes: the
    registry is the same map, so no entry appears under that name and no
    counter moves. *)
Theorem release_into_removed_pool_destroys_driver connectionName driver w st :
  m_connectionPool w !! connectionName = None →
  heap w !! driver = Some st →
  ∃ r,
    pushDatabaseBack connectionName driver w = Some r
    ∧ events r = [Delete driver]
    ∧ heap (world r) = delete driver (heap w)
    ∧ m_connectionPool (world r) = m_connectionPool w
    ∧ m_connectionPool (world r) !! connectionName = None
    ∧ allocated (world r) = allocated w
    ∧ objects (world r) = objects w
    ∧ owned (world r) = owned w.
Proof.
  intros Hp Hd. eexists. split.
  - by apply pushDatabaseBack_unregistered with (st := st).
  - by repeat split.
Qed.

(** ** The registry *)

(** C8. [create] under a name that is registered changes nothing: the world
    after the call is the world before it, so the registered pool keeps its
    factory, limits, hooks, idle list, waiters and [connectionCount]. The
    call has a result (nothing is raised) and its only effect is a
    warning. *)
Theorem create_of_registered_name_is_noop factory poolName w iPool :
  m_connectionPool w !! poolName = Some iPool →
  create factory poolName w
  = Some (mkResult tt w
      [Log QtWarningMsg "Ignoring addDatabase, connectionName already available"])
  ∧ addDatabase factory poolName w = create factory poolName w.
Proof.
  intros Hp. split; [|done]. unfold create. unfold_m. simpl. by rewrite Hp.
Qed.

(** C10. [remove] erases the entry and does nothing else: no event at all,
    so no driver is deleted and no continuation is called; the driver
    objects are the same as before, those of the idle list included. The
    world after the call does not depend on what the removed pool held:
    its idle drivers and its waiters are out of reach of every later
    step. *)
Theorem remove_erases_entry_only poolName w iPool :
  m_connectionPool w !! poolName = Some iPool →
  ∃ r,
    remove poolName w = Some r
    ∧ events r = []
    ∧ m_connectionPool (world r) = delete poolName (m_connectionPool w)
    ∧ m_connectionPool (world r) !! poolName = None
    ∧ heap (world r) = heap w
    ∧ (∀ driver, driver ∈ pool iPool → heap (world r) !! driver = heap w !! driver)
    ∧ owned (world r) = owned w
    ∧ ∀ iPool',
        remove poolName
          (set_m_connectionPool (<[poolName := iPool']> (m_connectionPool w)) w)
        = Some r.
Proof.
  intros Hp. eexists. split; [reflexivity|]. simpl.
  repeat split; try done.
  - apply lookup_delete_eq.
  - intros iPool'. unfold remove, modify. simpl.
    by rewrite delete_insert_eq.
Qed.

(** ** Acquisition *)

(** C7. A synchronous acquisition from a registered pool with no idle
    driver, a nonzero [maximuConnections] and a [connectionCount] that has
    reached it: the world is unchanged (no driver is made, no counter
    moves), a warning says that the maximum is reached, and the caller gets
    a handle with no driver behind it, on which [open] was called. *)
Theorem database_at_capacity_returns_empty_handle poolName w iPool :
  m_connectionPool w !! poolName = Some iPool →
  pool iPool = [] →
  maximuConnections iPool ≠ 0 →
  maximuConnections iPool ≤ connectionCount iPool →
  database poolName w
  = Some (mkResult {| d := None |} w
      [Log QtWarningMsg "Maximum number of connections reached";
       Open {| d := None |}]).
Proof.
  intros Hp Hidle Hnz Hmax. unfold database. unfold_m. simpl.
  rewrite Hp. simpl. rewrite Hidle.
  unfold exhausted.
  destruct (Z.eqb_spec (maximuConnections iPool) 0) as [|_]; [done|].
  destruct (Z.leb_spec (maximuConnections iPool) (connectionCount iPool)); [|lia].
  simpl. reflexivity.
Qed.

(** C3, as the code has it. An acquisition from a registered pool, in either
    style. If the idle list is not empty, its last driver (the one added most
    recently) is taken off it and the reuse hook, if set, is called on the
    handle. If the idle list is empty and [maximuConnections] is 0 or above
    [connectionCount], the count goes up by one, the factory makes a driver
    and the setup hook, if set, is called on the handle. In both cases the
    handle is opened and handed over within the call: [database] returns it;
    the callback style calls the continuation with it when the continuation
    is not empty, and queues nothing. *)
Theorem acquisition_reuses_last_idle_or_creates poolName w iPool cb receiver :
  m_connectionPool w !! poolName = Some iPool →
  (∀ rest driver, pool iPool = rest ++ [driver] →
     let db := wrap poolName driver in
     database poolName w
     = Some (mkResult db (reused poolName iPool rest driver w)
         (Log QtDebugMsg "Reusing a database connection from pool"
          :: calls ReuseCall (reuseCb iPool) db ++ [Open db]))
     ∧ databaseCb cb receiver poolName w
       = Some (mkResult tt (reused poolName iPool rest driver w)
           (Log QtDebugMsg "Reusing a database connection from pool"
            :: calls ReuseCall (reuseCb iPool) db
            ++ Open db :: calls ClientCall cb db)))
  ∧ (pool iPool = [] →
     maximuConnections iPool = 0 ∨ connectionCount iPool < maximuConnections iPool →
     let db := wrap poolName (allocated w) in
     database poolName w
     = Some (mkResult db (created poolName iPool w)
         (CreateRawDriver (driverFactory iPool) (allocated w)
          :: Log QtDebugMsg "Creating a database connection for pool"
          :: calls SetupCall (setupCb iPool) db ++ [Open db]))
     ∧ databaseCb cb receiver poolName w
       = Some (mkResult tt (created poolName iPool w)
           (Log QtDebugMsg "Creating a database connection for pool"
            :: CreateRawDriver (driverFactory iPool) (allocated w)
            :: calls SetupCall (setupCb iPool) db
            ++ Open db :: calls ClientCall cb db))).
Proof.
  intros Hp. split.
  - intros rest driver Hidle. split.
    + by apply database_reuse.
    + by apply databaseCb_reuse.
  - intros Hidle Hroom. apply exhausted_false_iff in Hroom. split.
    + by apply database_create.
    + by apply databaseCb_create.
Qed.

(** C3 as stated fails for a callback-style acquisition whose continuation
    is empty: the driver is taken from the idle list and the reuse hook runs,
    but no continuation is called, so the handle reaches nobody. *)
Lemma acquisition_with_empty_continuation_returns_no_handle :
  m_connectionPool Examples.idleOne !! "p" = Some Examples.idleOnePool
  ∧ pool Examples.idleOnePool = [1%nat]
  ∧ ∃ r,
      databaseCb None None "p" Examples.idleOne = Some r
      ∧ events r
        = [Log QtDebugMsg "Reusing a database connection from pool";
           Call ReuseCall 9 (wrap "p" 1); Open (wrap "p" 1)]
      ∧ ¬ ∃ k db, Call ClientCall k db ∈ events r.
Proof.
  split; [vm_compute; reflexivity|]. split; [reflexivity|].
  eexists. split; [vm_compute; reflexivity|]. split; [reflexivity|].
  intros (k & db & H). simpl in H.
  repeat (apply elem_of_cons in H as [H|H]; [discriminate|]).
  by apply elem_of_nil in H.
Qed.

(** ** Hooks *)

Lemma step_Acquire_inv poolName w r :
  step (Acquire poolName) w = Some r →
  ∃ r0, database poolName w = Some r0
    ∧ world r = world r0 ∧ events r = events r0.
Proof.
  unfold step. unfold mbind, M_bind, mret, M_ret.
  destruct (database poolName w) as [r0|]; [|done].
  intros [= <-]. exists r0. simpl. by rewrite app_nil_r.
Qed.

Lemma release_inv h w r :
  release h w = Some r →
  h ∈ owned w
  ∧ pushDatabaseBack (deleterPool h) (ptr h) (set_owned (removeOne h (owned w)) w)
    = Some r.
Proof.
  unfold release. by destruct (decide (h ∈ owned w)).
Qed.

Lemma hookCalls_pushDatabaseBack connectionName driver w r :
  pushDatabaseBack connectionName driver w = Some r → hookCalls (events r) = [].
Proof.
  intros Hr. apply pushDatabaseBack_cases in Hr as (st & _ & Hr).
  destruct (m_connectionPool w !! connectionName) as [iPool|]; [|by subst].
  destruct (decide (st = Disconnected)); [by subst|].
  destruct (dequeueClient (objects w) (connectionQueue iPool)) as [[client queue']|].
  - by destruct Hr as (k & _ & ->).
  - by destruct (decide (maxIdleConnections iPool ≤ Z.of_nat (length (pool iPool))));
      subst.
Qed.

Lemma hooksDue_snoc op poolName w iPool rest driver :
  (op = Acquire poolName ∨ ∃ cb receiver, op = AcquireCb cb receiver poolName) →
  m_connectionPool w !! poolName = Some iPool →
  pool iPool = rest ++ [driver] →
  hooksDue op w = calls ReuseCall (reuseCb iPool) (wrap poolName driver).
Proof.
  intros Hop Hp Hl.
  assert (List.last (pool iPool) 0%nat = driver) as Hlast
    by (by rewrite Hl, last_last).
  destruct Hop as [->|(cb & receiver & ->)]; simpl; rewrite Hp, Hlast;
    rewrite Hl; by destruct rest.
Qed.

Lemma hookCalls_setters w r poolName (f : APoolInternal → APoolInternal) text :
  (it ← find poolName;
   match it with
   | Some iPool => store poolName (f iPool)
   | None => qLog QtCriticalMsg text
   end) w = Some r →
  hookCalls (events r) = [].
Proof.
  unfold_m. simpl. destruct (m_connectionPool w !! poolName); by intros [= <-].
Qed.

(** C9. A release never calls the setup hook or the reuse hook: when it
    hands the driver to a waiter, the call of the waiter's continuation is
    its only event. Over all steps, the hook calls are those of the
    acquisition paths and no others: the setup hook, if set, on the handle of
    a driver just made by the factory, the reuse hook, if set, on the handle
    of a driver taken from the idle list. *)
Theorem hooks_run_only_on_acquisition :
  (∀ connectionName driver w r,
     pushDatabaseBack connectionName driver w = Some r →
     hookCalls (events r) = [])
  ∧ (∀ h w r, step (Release h) w = Some r → hookCalls (events r) = [])
  ∧ (∀ op w r, step op w = Some r → hookCalls (events r) = hooksDue op w).
Proof.
  split; [apply hookCalls_pushDatabaseBack|].
  split.
  { intros h w r Hr. apply release_inv in Hr as [_ Hr].
    by apply hookCalls_pushDatabaseBack in Hr. }
  intros op w r Hr. destruct op as
    [factory poolName|poolName|cb receiver poolName|h|max poolName|max poolName
    |cb poolName|cb poolName|driver st|o|o].
  - revert Hr. unfold step, create. unfold_m. simpl.
    destruct (m_connectionPool w !! poolName); by intros [= <-].
  - apply step_Acquire_inv in Hr as (r0 & Hr0 & _ & ->).
    apply database_cases in Hr0.
    destruct (m_connectionPool w !! poolName) as [iPool|] eqn:Hp;
      [|subst; simpl; by rewrite Hp].
    destruct (decide (pool iPool = [])) as [Hidle|Hidle].
    + simpl. rewrite Hp, Hidle.
      destruct (exhausted iPool); subst; [done|]. simpl.
      by destruct (setupCb iPool).
    + destruct Hr0 as (rest & driver & Hl & ->).
      rewrite (hooksDue_snoc _ poolName w iPool rest driver) by auto.
      simpl. by destruct (reuseCb iPool).
  - simpl in Hr. apply databaseCb_cases in Hr.
    destruct (m_connectionPool w !! poolName) as [iPool|] eqn:Hp;
      [|subst; simpl; rewrite Hp; by destruct cb].
    destruct (decide (pool iPool = [])) as [Hidle|Hidle].
    + simpl. rewrite Hp, Hidle.
      destruct (exhausted iPool); subst; [done|]. simpl.
      by destruct (setupCb iPool), cb.
    + destruct Hr as (rest & driver & Hl & ->).
      rewrite (hooksDue_snoc _ poolName w iPool rest driver) by eauto.
      simpl. by destruct (reuseCb iPool), cb.
  - apply release_inv in Hr as [_ Hr].
    by apply hookCalls_pushDatabaseBack in Hr.
  - by apply hookCalls_setters in Hr.
  - by apply hookCalls_setters in Hr.
  - by apply hookCalls_setters in Hr.
  - by apply hookCalls_setters in Hr.
  - revert Hr. unfold step, driverState.
    destruct (heap w !! driver); by intros [= <-].
  - revert Hr. unfold step, modify. by intros [= <-].
  - revert Hr. unfold step, modify. by intros [= <-].
Qed.

(** ** Counting the checked-out connections *)

Section Counting.

Implicit Types (h : SharedDriver) (l : list SharedDriver) (n : string).

Local Abbreviation count n l := (length (filter (λ h, deleterPool h = n) l)).

Lemma count_cons_eq h l : count (deleterPool h) (h :: l) = S (count (deleterPool h) l).
Proof. by rewrite filter_cons_True. Qed.

Lemma count_cons_ne n h l : deleterPool h ≠ n → count n (h :: l) = count n l.
Proof. intros Hn. by rewrite filter_cons_False. Qed.

Lemma count_zero n l : (∀ h, h ∈ l → deleterPool h ≠ n) → count n l = 0%nat.
Proof.
  induction l as [|h l IH]; intros Hl; [done|].
  rewrite count_cons_ne by (apply Hl; left).
  apply IH. intros h' Hh'. apply Hl. by right.
Qed.

Lemma count_removeOne_eq h l :
  h ∈ l → S (count (deleterPool h) (removeOne h l)) = count (deleterPool h) l.
Proof.
  induction l as [|h' l IH]; intros Hin; [by apply elem_of_nil in Hin|].
  simpl removeOne. destruct (decide (h = h')) as [<-|Hne].
  - by rewrite count_cons_eq.
  - apply elem_of_cons in Hin as [?|Hin]; [done|].
    destruct (decide (deleterPool h' = deleterPool h)) as [Heq|Hd].
    + rewrite !filter_cons_True by done. simpl. f_equal. by apply IH.
    + rewrite !count_cons_ne by done. by apply IH.
Qed.

Lemma count_removeOne_ne n h l :
  deleterPool h ≠ n → count n (removeOne h l) = count n l.
Proof.
  intros Hn. induction l as [|h' l IH]; [done|].
  simpl removeOne. destruct (decide (h = h')) as [<-|Hne].
  - by rewrite count_cons_ne.
  - destruct (decide (deleterPool h' = n)) as [Heq|Hd].
    + rewrite !filter_cons_True by done. simpl. by rewrite IH.
    + by rewrite !count_cons_ne.
Qed.

Lemma elem_of_removeOne h' h l : h' ∈ removeOne h l → h' ∈ l.
Proof.
  induction l as [|x l IH]; [done|]. simpl.
  destruct (decide (h = x)); [by right|].
  intros [->|Hin]%elem_of_cons; [by left|]. right. by apply IH.
Qed.

End Counting.

(** ** The first invariant is kept by every step *)

Lemma consistent_same w w' :
  consistent w →
  m_connectionPool w' = m_connectionPool w → owned w' = owned w →
  consistent w'.
Proof.
  intros [Hc Ho] Hm Hw. split.
  - intros n p Hp. rewrite Hm in Hp. specialize (Hc n p Hp).
    unfold liveCountInv, checkedOut in *. by rewrite Hw.
  - intros h Hh. rewrite Hm. apply Ho. by rewrite <- Hw.
Qed.

Lemma consistent_update w w' n p' :
  consistent w →
  m_connectionPool w' = <[n := p']> (m_connectionPool w) →
  liveCountInv n p' w' →
  (∀ n', n' ≠ n → checkedOut n' w' = checkedOut n' w) →
  (∀ h, h ∈ owned w' → h ∈ owned w ∨ deleterPool h = n) →
  consistent w'.
Proof.
  intros [Hc Ho] Hm Hn Hother Hown. split.
  - intros n' p Hp. rewrite Hm in Hp.
    destruct (decide (n = n')) as [<-|Hne].
    + rewrite lookup_insert_eq in Hp. by simplify_eq.
    + rewrite lookup_insert_ne in Hp by done.
      specialize (Hc n' p Hp). unfold liveCountInv in *.
      by rewrite Hother.
  - intros h Hh. rewrite Hm.
    destruct (Hown h Hh) as [Hin| ->].
    + destruct (decide (n = deleterPool h)) as [->|Hne].
      * rewrite lookup_insert_eq. by eexists.
      * rewrite lookup_insert_ne by done. by apply Ho.
    + rewrite lookup_insert_eq. by eexists.
Qed.

Lemma setter_inv w r poolName (f : APoolInternal → APoolInternal) text :
  (it ← find poolName;
   match it with
   | Some iPool => store poolName (f iPool)
   | None => qLog QtCriticalMsg text
   end) w = Some r →
  match m_connectionPool w !! poolName with
  | Some iPool =>
      world r = set_m_connectionPool (<[poolName := f iPool]> (m_connectionPool w)) w
  | None => world r = w
  end.
Proof.
  unfold_m. simpl. destruct (m_connectionPool w !! poolName); by intros [= <-].
Qed.

Lemma setter_consistent w r poolName (f : APoolInternal → APoolInternal) text :
  (∀ iPool, pool (f iPool) = pool iPool
            ∧ connectionCount (f iPool) = connectionCount iPool) →
  consistent w →
  (it ← find poolName;
   match it with
   | Some iPool => store poolName (f iPool)
   | None => qLog QtCriticalMsg text
   end) w = Some r →
  consistent (world r).
Proof.
  intros Hf Hw Hr. apply setter_inv in Hr.
  destruct (m_connectionPool w !! poolName) as [iPool|] eqn:Hp.
  - rewrite Hr. eapply consistent_update; [exact Hw|reflexivity| | |]; simpl.
    + destruct Hw as [Hc _]. specialize (Hc _ _ Hp).
      destruct (Hf iPool) as [Hpool Hcount].
      unfold liveCountInv, checkedOut in *. simpl. by rewrite Hpool, Hcount.
    + done.
    + auto.
  - by rewrite Hr.
Qed.

Lemma created_consistent poolName iPool w :
  consistent w →
  m_connectionPool w !! poolName = Some iPool →
  consistent (created poolName iPool w).
Proof.
  intros Hw Hp.
  eapply consistent_update; [exact Hw|reflexivity| | |]; simpl.
  - destruct Hw as [Hc _]. specialize (Hc _ _ Hp).
    unfold liveCountInv, checkedOut in *. simpl.
    rewrite (count_cons_eq {| ptr := allocated w; deleterPool := poolName |}).
    simpl. lia.
  - intros n' Hne. unfold checkedOut. simpl. by rewrite count_cons_ne.
  - intros h [->|Hin]%elem_of_cons; auto.
Qed.

Lemma reused_consistent poolName iPool rest driver w :
  consistent w →
  m_connectionPool w !! poolName = Some iPool →
  pool iPool = rest ++ [driver] →
  consistent (reused poolName iPool rest driver w).
Proof.
  intros Hw Hp Hl.
  eapply consistent_update; [exact Hw|reflexivity| | |]; simpl.
  - destruct Hw as [Hc _]. specialize (Hc _ _ Hp).
    unfold liveCountInv, checkedOut in *. simpl.
    rewrite (count_cons_eq {| ptr := driver; deleterPool := poolName |}).
    rewrite Hl, length_app in Hc. simpl in *. lia.
  - intros n' Hne. unfold checkedOut. simpl. by rewrite count_cons_ne.
  - intros h [->|Hin]%elem_of_cons; auto.
Qed.

Lemma queued_consistent poolName iPool cb receiver w :
  consistent w →
  m_connectionPool w !! poolName = Some iPool →
  consistent (queued poolName iPool cb receiver w).
Proof.
  intros Hw Hp.
  eapply consistent_update; [exact Hw|reflexivity| | |]; simpl; auto.
  destruct Hw as [Hc _]. by specialize (Hc _ _ Hp).
Qed.

Lemma release_consistent h w r :
  consistent w → release h w = Some r → consistent (world r).
Proof.
  intros Hw Hr. apply release_inv in Hr as [Hin Hr].
  apply pushDatabaseBack_cases in Hr as (st & _ & Hr). simpl in Hr.
  pose proof Hw as [Hc Ho].
  destruct (Ho h Hin) as [iPool Hp]. rewrite Hp in Hr.
  specialize (Hc _ _ Hp). unfold liveCountInv, checkedOut in Hc.
  pose proof (count_removeOne_eq h (owned w) Hin) as Hcount.
  assert (∀ w' : World,
    m_connectionPool w' = <[deleterPool h := set_connectionCount
        (connectionCount iPool - 1) iPool]> (m_connectionPool w)
    ∨ m_connectionPool w' = <[deleterPool h := set_connectionCount
        (connectionCount iPool - 1) (set_connectionQueue [] iPool)]>
        (m_connectionPool w) →
    owned w' = removeOne h (owned w) →
    consistent w') as Hdestroyed.
  { intros w' Hm Hown.
    destruct Hm as [Hm|Hm];
      (eapply consistent_update; [exact Hw|exact Hm| | |]);
      unfold liveCountInv, checkedOut; rewrite Hown; simpl;
      try lia;
      try (intros n' Hne; by apply count_removeOne_ne);
      try (intros h' Hh'; left; by eapply elem_of_removeOne). }
  destruct (decide (st = Disconnected)).
  { subst r. apply Hdestroyed; simpl; auto. }
  destruct (dequeueClient (objects w) (connectionQueue iPool)) as [[client queue']|].
  - destruct Hr as (k & _ & ->). simpl.
    eapply consistent_update; [exact Hw|reflexivity| | |]; simpl.
    + unfold liveCountInv, checkedOut. simpl.
      replace {| ptr := ptr h; deleterPool := deleterPool h |} with h
        by (by destruct h).
      rewrite count_cons_eq. lia.
    + intros n' Hne. unfold checkedOut. simpl.
      rewrite count_cons_ne by done. by apply count_removeOne_ne.
    + intros h' [->|Hh']%elem_of_cons; [by right|].
      left. by eapply elem_of_removeOne.
  - destruct (decide (maxIdleConnections iPool ≤ Z.of_nat (length (pool iPool)))).
    { subst r. apply Hdestroyed; simpl; auto. }
    subst r. simpl.
    eapply consistent_update; [exact Hw|reflexivity| | |]; simpl.
    + unfold liveCountInv, checkedOut. simpl. rewrite length_app. simpl. lia.
    + intros n' Hne. by apply count_removeOne_ne.
    + intros h' Hh'. left. by eapply elem_of_removeOne.
Qed.

Lemma step_consistent op w r :
  consistent w → step op w = Some r → consistent (world r).
Proof.
  intros Hw Hr. destruct op as
    [factory poolName|poolName|cb receiver poolName|h|max poolName|max poolName
    |cb poolName|cb poolName|driver st|o|o].
  - revert Hr. unfold step, create. unfold_m. simpl.
    destruct (m_connectionPool w !! poolName) as [iPool|] eqn:Hp;
      intros [= <-]; simpl; [by destruct w|].
    eapply consistent_update; [exact Hw|reflexivity| | |]; simpl; auto.
    unfold liveCountInv, checkedOut. simpl.
    rewrite count_zero; [done|].
    intros h Hh Heq. destruct Hw as [_ Ho].
    destruct (Ho h Hh) as [p Hlookup]. congruence.
  - apply step_Acquire_inv in Hr as (r0 & Hr0 & -> & _).
    apply database_cases in Hr0.
    destruct (m_connectionPool w !! poolName) as [iPool|] eqn:Hp; [|by subst].
    destruct (decide (pool iPool = [])).
    + destruct (exhausted iPool); subst; simpl; [done|].
      by apply created_consistent.
    + destruct Hr0 as (rest & driver & Hl & ->). simpl.
      by apply reused_consistent.
  - simpl in Hr. apply databaseCb_cases in Hr.
    destruct (m_connectionPool w !! poolName) as [iPool|] eqn:Hp; [|by subst].
    destruct (decide (pool iPool = [])).
    + destruct (exhausted iPool); subst; simpl.
      * by apply queued_consistent.
      * by apply created_consistent.
    + destruct Hr as (rest & driver & Hl & ->). simpl.
      by apply reused_consistent.
  - by eapply release_consistent.
  - eapply setter_consistent; [|exact Hw|exact Hr]. done.
  - eapply setter_consistent; [|exact Hw|exact Hr]. done.
  - eapply setter_consistent; [|exact Hw|exact Hr]. done.
  - eapply setter_consistent; [|exact Hw|exact Hr]. done.
  - revert Hr. unfold step, driverState.
    destruct (heap w !! driver); [|done]. intros [= <-].
    by eapply consistent_same.
  - revert Hr. unfold step, modify. intros [= <-]. by eapply consistent_same.
  - revert Hr. unfold step, modify. intros [= <-]. by eapply consistent_same.
Qed.

(** ** Every step, branch by branch *)

Lemma step_Acquire_result poolName w r :
  step (Acquire poolName) w = Some r →
  ∃ r0, database poolName w = Some r0 ∧ r = mkResult tt (world r0) (events r0).
Proof.
  unfold step. unfold mbind, M_bind, mret, M_ret.
  destruct (database poolName w) as [r0|]; [|done].
  intros [= <-]. exists r0. simpl. by rewrite app_nil_r.
Qed.

(** [step_cases Hr] turns [Hr : step op w = Some r] into one goal for each
    branch of each operation, with the world and the events of [r] written
    out. *)
Ltac acquisition_cases Hr0 w poolName :=
  let iPool := fresh "iPool" in
  let Hp := fresh "Hp" in
  let Hidle := fresh "Hidle" in
  let Hex := fresh "Hex" in
  destruct (m_connectionPool w !! poolName) as [iPool|] eqn:Hp;
    [destruct (decide (pool iPool = [])) as [Hidle|Hidle];
       [destruct (exhausted iPool) eqn:Hex
       |let rest := fresh "rest" in
        let driver := fresh "driver" in
        let Hl := fresh "Hl" in
        destruct Hr0 as (rest & driver & Hl & Hr0)]
    |].

Ltac release_cases Hr h w :=
  let Hin := fresh "Hin" in
  let st := fresh "st" in
  let Hd := fresh "Hd" in
  let iPool := fresh "iPool" in
  let Hp := fresh "Hp" in
  let Hst := fresh "Hst" in
  let Hq := fresh "Hq" in
  let Hroom := fresh "Hroom" in
  apply release_inv in Hr as [Hin Hr];
  apply pushDatabaseBack_cases in Hr as (st & Hd & Hr);
  simpl in Hr, Hd;
  destruct (m_connectionPool w !! deleterPool h) as [iPool|] eqn:Hp;
    [destruct (decide (st = Disconnected)) as [Hst|Hst];
       [|destruct (dequeueClient (objects w) (connectionQueue iPool))
           as [[? ?]|] eqn:Hq;
         [destruct Hr as (? & ? & Hr)
         |destruct (decide (maxIdleConnections iPool
                            ≤ Z.of_nat (length (pool iPool)))) as [Hroom|Hroom]]]
    |].

Ltac setter_cases Hr w poolName :=
  let iPool := fresh "iPool" in
  let Hp := fresh "Hp" in
  revert Hr;
  unfold step, create, setMaxIdleConnections, setMaxConnections,
    setSetupCallback, setReuseCallback;
  unfold_m; simpl;
  destruct (m_connectionPool w !! poolName) as [iPool|] eqn:Hp;
  intros Hr; injection Hr as Hr.

Ltac step_cases Hr :=
  lazymatch type of Hr with
  | step ?op ?w = Some ?r =>
      let poolName := fresh "poolName" in
      let h := fresh "h" in
      let Hw := fresh "Hresult" in
      let r0 := fresh "r0" in
      destruct op as
        [?factory poolName|poolName|?cb ?receiver poolName|h
        |?max poolName|?max poolName|?cb poolName|?cb poolName
        |?driver ?st|?o|?o];
      [ setter_cases Hr w poolName
      | apply step_Acquire_result in Hr as (r0 & Hr & Hw);
        apply database_cases in Hr; acquisition_cases Hr w poolName;
        subst r0; subst r; simpl
      | simpl in Hr; apply databaseCb_cases in Hr; acquisition_cases Hr w poolName
      | release_cases Hr h w
      | setter_cases Hr w poolName
      | setter_cases Hr w poolName
      | setter_cases Hr w poolName
      | setter_cases Hr w poolName
      | revert Hr; unfold step, driverState;
        let Hd := fresh "Hd" in
        destruct (heap w !! _) eqn:Hd; [|done]; intros Hr; injection Hr as Hr
      | revert Hr; unfold step, modify; intros Hr; injection Hr as Hr
      | revert Hr; unfold step, modify; intros Hr; injection Hr as Hr ];
      try subst r
  end.

(** ** The two bounds, pool by pool and step by step *)

(** A pool that a step has just registered is within both bounds. *)
Lemma step_new_pool_within_bounds op w r name iPool' :
  step op w = Some r →
  m_connectionPool w !! name = None →
  m_connectionPool (world r) !! name = Some iPool' →
  maxIdleInv iPool' ∧ maxTotalInv iPool'.
Proof.
  intros Hr Hb Ha. step_cases Hr; simpl in *; try congruence;
    try match type of Ha with
    | <[?n := _]> _ !! _ = _ =>
        destruct (decide (n = name)) as [Heq|Hne];
        [rewrite Heq in *; rewrite lookup_insert_eq in Ha
        |rewrite lookup_insert_ne in Ha by done]
    end; try congruence.
  injection Ha as <-. split; [unfold maxIdleInv; simpl; lia|by left].
Qed.

(** A step keeps each bound of each pool, unless it is the setter that puts
    that limit of that pool below use. *)
Lemma step_keeps_bounds op w r name iPool iPool' :
  step op w = Some r →
  m_connectionPool w !! name = Some iPool →
  m_connectionPool (world r) !! name = Some iPool' →
  (maxIdleInv iPool → lowersMaxIdle name op w = false → maxIdleInv iPool')
  ∧ (maxTotalInv iPool → lowersMaxTotal name op w = false → maxTotalInv iPool').
Proof.
  intros Hr Hb Ha. step_cases Hr; simpl in *;
    try match type of Ha with
    | <[?n := _]> _ !! _ = _ =>
        destruct (decide (n = name)) as [Heq|Hne];
        [rewrite Heq in *; rewrite lookup_insert_eq in Ha
        |rewrite lookup_insert_ne in Ha by done]
    end;
    simplify_eq; try (split; intros; assumption).
  all: unfold maxIdleInv, maxTotalInv, lowersMaxIdle, lowersMaxTotal in *;
    simpl in *; rewrite ?Hb in *;
    try apply exhausted_false_iff in Hex;
    try rewrite Hl in *; rewrite ?length_app in *; simpl in *;
    rewrite ?bool_decide_eq_true_2 by done; simpl;
    (split; intros Hinv Hlow); try lia.
Qed.

(** ** Runs *)

Lemma run_preserves (G : Op → World → bool) (P : World → Prop) :
  (∀ op w r, P w → G op w = true → step op w = Some r → P (world r)) →
  ∀ ops w r, P w → run G ops w = Some r → P (world r).
Proof.
  intros Hstep ops. induction ops as [|op ops IH]; intros w r Hw; simpl.
  - unfold mret, M_ret. by intros [= <-].
  - destruct (G op w) eqn:HG; [|done].
    unfold mbind, M_bind.
    destruct (step op w) as [r1|] eqn:H1; [|done].
    destruct (run G ops (world r1)) as [r2|] eqn:H2; [|done].
    intros [= <-]. simpl. eapply IH; [|exact H2]. by eapply Hstep.
Qed.

Lemma initial_consistent : consistent initial.
Proof.
  split.
  - intros n p Hp. simpl in Hp. by rewrite lookup_empty in Hp.
  - intros h Hh. by apply elem_of_nil in Hh.
Qed.

(** ** The invariants along runs *)

Lemma run_keeps_bound (G : Op → World → bool) (B : APoolInternal → Prop) name :
  (∀ op w r iPool', step op w = Some r →
     m_connectionPool w !! name = None →
     m_connectionPool (world r) !! name = Some iPool' → B iPool') →
  (∀ op w r iPool iPool', step op w = Some r → G op w = true →
     m_connectionPool w !! name = Some iPool →
     m_connectionPool (world r) !! name = Some iPool' → B iPool → B iPool') →
  ∀ ops r iPool,
    run G ops initial = Some r →
    m_connectionPool (world r) !! name = Some iPool → B iPool.
Proof.
  intros Hnew Hkeep ops r iPool Hrun Hp.
  assert (∀ p, m_connectionPool (world r) !! name = Some p → B p) as HB;
    [|by apply HB].
  eapply (run_preserves G (λ w, ∀ p, m_connectionPool w !! name = Some p → B p));
    [| |exact Hrun].
  - intros op w r' Hw HG Hr' p' Hp'.
    destruct (m_connectionPool w !! name) as [p|] eqn:Hb.
    + eapply Hkeep; eauto.
    + eapply Hnew; eauto.
  - intros p Hn. simpl in Hn. by rewrite lookup_empty in Hn.
Qed.

(** C2, as the code has it. The sequences are those of registration,
    acquisition in both styles, release and configuration (with what the
    environment does to connections and receivers), from the empty registry;
    no pool is removed. After any such sequence every registered pool has
    [connectionCount] equal to the size of its idle list plus the number of
    its connections that are checked out. A pool is within both bounds when
    it is registered. Every step keeps each bound of each pool (at most
    [maxIdleConnections] idle drivers; [maximuConnections] 0 or at least
    [connectionCount]), acquisitions and releases included, with one
    exception per bound: the setter that puts that limit of that same pool
    below what the pool uses at that moment. So a bound of a pool holds
    after every sequence without that setter step, whatever is done to the
    other limit and to other pools. *)
Theorem pool_invariants_along_runs :
  (∀ ops r poolName iPool,
     run anyTime ops initial = Some r →
     m_connectionPool (world r) !! poolName = Some iPool →
     liveCountInv poolName iPool (world r))
  ∧ (∀ op w r poolName iPool',
       step op w = Some r →
       m_connectionPool w !! poolName = None →
       m_connectionPool (world r) !! poolName = Some iPool' →
       maxIdleInv iPool' ∧ maxTotalInv iPool')
  ∧ (∀ op w r poolName iPool iPool',
       step op w = Some r →
       m_connectionPool w !! poolName = Some iPool →
       m_connectionPool (world r) !! poolName = Some iPool' →
       (maxIdleInv iPool → lowersMaxIdle poolName op w = false → maxIdleInv iPool')
       ∧ (maxTotalInv iPool → lowersMaxTotal poolName op w = false →
          maxTotalInv iPool'))
  ∧ (∀ ops r poolName iPool,
       run (sparesMaxIdle poolName) ops initial = Some r →
       m_connectionPool (world r) !! poolName = Some iPool →
       maxIdleInv iPool)
  ∧ (∀ ops r poolName iPool,
       run (sparesMaxTotal poolName) ops initial = Some r →
       m_connectionPool (world r) !! poolName = Some iPool →
       maxTotalInv iPool).
Proof.
  split; [|split; [|split; [|split]]].
  - intros ops r poolName iPool Hrun Hp.
    assert (consistent (world r)) as [Hc _]; [|by apply Hc].
    eapply (run_preserves anyTime consistent); [|apply initial_consistent|exact Hrun].
    intros op w r' Hw _ Hr'. by eapply step_consistent.
  - intros op w r poolName iPool'. apply step_new_pool_within_bounds.
  - intros op w r poolName iPool iPool'. apply step_keeps_bounds.
  - intros ops r poolName. apply (run_keeps_bound (sparesMaxIdle poolName)).
    + intros op w r' iPool' Hr' Hb Ha.
      by destruct (step_new_pool_within_bounds _ _ _ _ _ Hr' Hb Ha).
    + intros op w r' iPool iPool' Hr' HG Hb Ha Hinv.
      destruct (step_keeps_bounds _ _ _ _ _ _ Hr' Hb Ha) as [Hkeep _].
      apply Hkeep; [done|]. unfold sparesMaxIdle in HG.
      by destruct (lowersMaxIdle poolName op w).
  - intros ops r poolName. apply (run_keeps_bound (sparesMaxTotal poolName)).
    + intros op w r' iPool' Hr' Hb Ha.
      by destruct (step_new_pool_within_bounds _ _ _ _ _ Hr' Hb Ha).
    + intros op w r' iPool iPool' Hr' HG Hb Ha Hinv.
      destruct (step_keeps_bounds _ _ _ _ _ _ Hr' Hb Ha) as [_ Hkeep].
      apply Hkeep; [done|]. unfold sparesMaxTotal in HG.
      by destruct (lowersMaxTotal poolName op w).
Qed.

(** C2 as stated fails once a limit is lowered. After [lowerMaxIdle], whose
    last step is a release that has completed, pool "p" holds one idle
    driver with [maxIdleConnections] 0. After [lowerMaxTotal], pool "p" has
    two live connections with [maximuConnections] 1. *)
Lemma lowered_limits_break_the_bounds :
  (∃ r iPool,
     run anyTime Examples.lowerMaxIdle initial = Some r
     ∧ m_connectionPool (world r) !! "p" = Some iPool
     ∧ pool iPool = [0%nat] ∧ maxIdleConnections iPool = 0
     ∧ ¬ maxIdleInv iPool)
  ∧ (∃ r iPool,
       run anyTime Examples.lowerMaxTotal initial = Some r
       ∧ m_connectionPool (world r) !! "p" = Some iPool
       ∧ connectionCount iPool = 2 ∧ maximuConnections iPool = 1
       ∧ ¬ maxTotalInv iPool).
Proof.
  split.
  - eexists. eexists. split; [vm_compute; reflexivity|].
    split; [vm_compute; reflexivity|].
    split; [reflexivity|]. split; [reflexivity|].
    unfold maxIdleInv. simpl. lia.
  - eexists. eexists. split; [vm_compute; reflexivity|].
    split; [vm_compute; reflexivity|].
    split; [reflexivity|]. split; [reflexivity|].
    unfold maxTotalInv. simpl. lia.
Qed.

(** * Further properties of the code *)

(** ** The registry: registration, removal, lookup of the count *)


(** X2. [remove] has a result for every name, leaves the name unregistered
    and every other entry alone; under a name that is not registered it
    changes nothing, so removing twice is removing once. After it,
    [currentConnections] reads 0. *)
Theorem remove_is_idempotent poolName w :
  ∃ r,
    remove poolName w = Some r
    ∧ m_connectionPool (world r) !! poolName = None
    ∧ (∀ other, other ≠ poolName →
         m_connectionPool (world r) !! other = m_connectionPool w !! other)
    ∧ (m_connectionPool w !! poolName = None → world r = w)
    ∧ remove poolName (world r) = Some (mkResult tt (world r) [])
    ∧ currentConnections poolName (world r) = Some (mkResult 0 (world r) []).
Proof.
  eexists. split; [reflexivity|]. simpl.
  split; [apply lookup_delete_eq|]. split; [|split; [|split]].
  - intros other Hne. by rewrite lookup_delete_ne.
  - intros Hp. rewrite delete_id by done. by destruct w.
  - unfold remove, modify. simpl.
    by rewrite (delete_id (delete poolName _)) by apply lookup_delete_eq.
  - unfold currentConnections. unfold_m. simpl. by rewrite lookup_delete_eq.
Qed.

(** ** Acquisition: the paths the claims leave out *)

(** X3. A callback-style acquisition from a registered pool with no idle
    driver and [connectionCount] at a nonzero [maximuConnections] appends the
    request to the tail of the queue and returns: the continuation is not
    called, [open] is not called, no driver is made, the count and the idle
    list stay. The receiver is checked later exactly when it was not null. *)
Theorem databaseCb_at_capacity_queues_request cb receiver poolName w iPool :
  m_connectionPool w !! poolName = Some iPool →
  pool iPool = [] →
  maximuConnections iPool ≠ 0 →
  maximuConnections iPool ≤ connectionCount iPool →
  ∃ r iPool',
    databaseCb cb receiver poolName w = Some r
    ∧ events r = [Log QtInfoMsg "Maximum number of connections reached, queuing"]
    ∧ m_connectionPool (world r) = <[poolName := iPool']> (m_connectionPool w)
    ∧ connectionQueue iPool'
      = connectionQueue iPool
        ++ [{| cb := cb; receiver := receiver;
               checkReceiver := match receiver with Some _ => true | None => false end |}]
    ∧ pool iPool' = []
    ∧ connectionCount iPool' = connectionCount iPool
    ∧ heap (world r) = heap w
    ∧ allocated (world r) = allocated w
    ∧ owned (world r) = owned w.
Proof.
  intros Hp Hidle Hnz Hmax.
  assert (exhausted iPool = true) as Hex by (by apply exhausted_true_iff).
  eexists. eexists. split; [by apply databaseCb_queued|].
  simpl. repeat split; try done. by destruct receiver.
Qed.

(** X4. An acquisition under a name that is not registered changes nothing
    and reports it as critical. [database] returns a handle with no driver;
    the callback style still calls a non-empty continuation, with a handle
    with no driver. [open] is called on that handle in both cases. *)
Theorem acquisition_from_unregistered_pool cb receiver poolName w :
  m_connectionPool w !! poolName = None →
  database poolName w
  = Some (mkResult {| d := None |} w
      [Log QtCriticalMsg "Database pool NOT FOUND"; Open {| d := None |}])
  ∧ databaseCb cb receiver poolName w
    = Some (mkResult tt w
        (Log QtCriticalMsg "Database pool NOT FOUND" :: Open {| d := None |}
         :: calls ClientCall cb {| d := None |})).
Proof.
  intros Hp. split.
  - by apply database_not_found.
  - by apply databaseCb_not_found.
Qed.

(** ** Configuration *)

(** X5. Each of the four setters, and each of the two older names that
    forward to them, changes nothing under a name that is not registered and
    reports it as critical. The setters of the two hooks report it with the
    text of [setMaxConnections]. *)
Theorem configuration_of_unregistered_pool_changes_nothing max cb poolName w :
  m_connectionPool w !! poolName = None →
  let failed text := Some (mkResult tt w [Log QtCriticalMsg text]) in
  setMaxIdleConnections max poolName w
  = failed "Failed to set maximum idle connections: Database pool NOT FOUND"
  ∧ setDatabaseMaxIdleConnections max poolName w
    = failed "Failed to set maximum idle connections: Database pool NOT FOUND"
  ∧ setMaxConnections max poolName w
    = failed "Failed to set maximum connections: Database pool NOT FOUND"
  ∧ setDatabaseMaximumConnections max poolName w
    = failed "Failed to set maximum connections: Database pool NOT FOUND"
  ∧ setSetupCallback cb poolName w
    = failed "Failed to set maximum connections: Database pool NOT FOUND"
  ∧ setReuseCallback cb poolName w
    = failed "Failed to set maximum connections: Database pool NOT FOUND".
Proof.
  intros Hp failed. subst failed.
  unfold setDatabaseMaxIdleConnections, setDatabaseMaximumConnections,
    setMaxIdleConnections, setMaxConnections, setSetupCallback, setReuseCallback.
  unfold_m. simpl. by rewrite Hp.
Qed.

Lemma setSetupCallback_registered cb poolName w iPool :
  m_connectionPool w !! poolName = Some iPool →
  setSetupCallback cb poolName w
  = Some (mkResult tt
      (set_m_connectionPool (<[poolName := set_setupCb cb iPool]> (m_connectionPool w)) w)
      []).
Proof. intros Hp. unfold setSetupCallback. unfold_m. simpl. by rewrite Hp. Qed.

Lemma setReuseCallback_registered cb poolName w iPool :
  m_connectionPool w !! poolName = Some iPool →
  setReuseCallback cb poolName w
  = Some (mkResult tt
      (set_m_connectionPool (<[poolName := set_reuseCb cb iPool]> (m_connectionPool w)) w)
      []).
Proof. intros Hp. unfold setReuseCallback. unfold_m. simpl. by rewrite Hp. Qed.

Lemma setMaxConnections_registered max poolName w iPool :
  m_connectionPool w !! poolName = Some iPool →
  setMaxConnections max poolName w
  = Some (mkResult tt
      (set_m_connectionPool
         (<[poolName := set_maximuConnections max iPool]> (m_connectionPool w)) w)
      []).
Proof. intros Hp. unfold setMaxConnections. unfold_m. simpl. by rewrite Hp. Qed.

Lemma setMaxIdleConnections_registered max poolName w iPool :
  m_connectionPool w !! poolName = Some iPool →
  setMaxIdleConnections max poolName w
  = Some (mkResult tt
      (set_m_connectionPool
         (<[poolName := set_maxIdleConnections max iPool]> (m_connectionPool w)) w)
      []).
Proof. intros Hp. unfold setMaxIdleConnections. unfold_m. simpl. by rewrite Hp. Qed.

(** X6. A hook set on a registered pool is the one the next acquisition
    calls, in either style, and setting it does nothing else. After
    [setSetupCallback] the next acquisition that makes a driver calls the new
    setup hook on its handle (and calls none when the new hook is empty);
    after [setReuseCallback] the next acquisition that takes an idle driver
    calls the new reuse hook on its handle. In the callback style the hook
    is called before [open] and before the continuation. *)
Theorem hooks_take_effect_on_next_acquisition cb poolName w iPool :
  m_connectionPool w !! poolName = Some iPool →
  ∃ r1 r2,
    setSetupCallback cb poolName w = Some r1 ∧ events r1 = []
    ∧ setReuseCallback cb poolName w = Some r2 ∧ events r2 = []
    ∧ (pool iPool = [] →
       maximuConnections iPool = 0 ∨ connectionCount iPool < maximuConnections iPool →
       let db := wrap poolName (allocated w) in
       (∃ r, database poolName (world r1) = Some r
          ∧ value r = db
          ∧ events r
            = CreateRawDriver (driverFactory iPool) (allocated w)
              :: Log QtDebugMsg "Creating a database connection for pool"
              :: calls SetupCall cb db ++ [Open db])
       ∧ ∀ cb' receiver,
           ∃ r, databaseCb cb' receiver poolName (world r1) = Some r
             ∧ events r
               = Log QtDebugMsg "Creating a database connection for pool"
                 :: CreateRawDriver (driverFactory iPool) (allocated w)
                 :: calls SetupCall cb db ++ Open db :: calls ClientCall cb' db)
    ∧ (∀ rest driver, pool iPool = rest ++ [driver] →
       let db := wrap poolName driver in
       (∃ r, database poolName (world r2) = Some r
          ∧ value r = db
          ∧ events r
            = Log QtDebugMsg "Reusing a database connection from pool"
              :: calls ReuseCall cb db ++ [Open db])
       ∧ ∀ cb' receiver,
           ∃ r, databaseCb cb' receiver poolName (world r2) = Some r
             ∧ events r
               = Log QtDebugMsg "Reusing a database connection from pool"
                 :: calls ReuseCall cb db ++ Open db :: calls ClientCall cb' db).
Proof.
  intros Hp. eexists. eexists.
  split; [by apply setSetupCallback_registered|]. split; [done|].
  split; [by apply setReuseCallback_registered|]. split; [done|].
  simpl. split.
  - intros Hidle Hroom. apply exhausted_false_iff in Hroom. split.
    + eexists. split.
      * apply (database_create _ _ (set_setupCb cb iPool));
          [apply lookup_insert_eq|done..].
      * done.
    + intros cb' receiver. eexists. split.
      * apply (databaseCb_create _ _ _ _ (set_setupCb cb iPool));
          [apply lookup_insert_eq|done..].
      * done.
  - intros rest driver Hl. split.
    + eexists. split.
      * apply (database_reuse _ _ (set_reuseCb cb iPool));
          [apply lookup_insert_eq|done].
      * done.
    + intros cb' receiver. eexists. split.
      * apply (databaseCb_reuse _ _ _ _ (set_reuseCb cb iPool));
          [apply lookup_insert_eq|done].
      * done.
Qed.

(** X7. [setMaxConnections] on a registered pool decides the next
    acquisition from an empty idle list: the handle [database] returns has no
    driver exactly when the new maximum is not 0 and [connectionCount] has
    reached it; otherwise a driver is made. Setting the maximum emits nothing
    and deletes nothing. *)
Theorem setMaxConnections_decides_next_acquisition max poolName w iPool :
  m_connectionPool w !! poolName = Some iPool →
  pool iPool = [] →
  ∃ r1 r,
    setMaxConnections max poolName w = Some r1
    ∧ events r1 = [] ∧ heap (world r1) = heap w
    ∧ database poolName (world r1) = Some r
    ∧ (d (value r) = None ↔ max ≠ 0 ∧ max ≤ connectionCount iPool)
    ∧ (d (value r) ≠ None →
       value r = wrap poolName (allocated w)
       ∧ CreateRawDriver (driverFactory iPool) (allocated w) ∈ events r).
Proof.
  intros Hp Hidle.
  pose (iPool' := set_maximuConnections max iPool).
  destruct (exhausted iPool') eqn:Hex.
  - eexists. eexists.
    split; [by apply setMaxConnections_registered|]. split; [done|].
    split; [done|]. split.
    { apply (database_exhausted _ _ iPool');
        [apply lookup_insert_eq|exact Hidle|exact Hex]. }
    simpl. apply exhausted_true_iff in Hex. simpl in Hex.
    split; [split; [intros _; exact Hex|done]|]. by intros [].
  - eexists. eexists.
    split; [by apply setMaxConnections_registered|]. split; [done|].
    split; [done|]. split.
    { apply (database_create _ _ iPool');
        [apply lookup_insert_eq|exact Hidle|exact Hex]. }
    simpl. apply exhausted_false_iff in Hex. simpl in Hex.
    split; [split; [done|lia]|]. intros _. split; [done|]. left.
Qed.

(** X8. [setMaxIdleConnections] on a registered pool decides the next
    release of a connected driver that finds no valid waiter: the driver is
    deleted exactly when the idle list already has the new maximum of entries
    or more, and is appended to the idle list otherwise. Setting the maximum
    deletes no idle driver, whatever the size of the idle list. *)
Theorem setMaxIdleConnections_decides_next_release max poolName driver w iPool st :
  m_connectionPool w !! poolName = Some iPool →
  heap w !! driver = Some st → st ≠ Disconnected →
  Forall (λ c, ¬ validWaiter (objects w) c) (connectionQueue iPool) →
  ∃ r1 r iPool',
    setMaxIdleConnections max poolName w = Some r1
    ∧ events r1 = [] ∧ heap (world r1) = heap w
    ∧ m_connectionPool (world r1) !! poolName
      = Some (set_maxIdleConnections max iPool)
    ∧ pushDatabaseBack poolName driver (world r1) = Some r
    ∧ m_connectionPool (world r) !! poolName = Some iPool'
    ∧ (heap (world r) !! driver = None ↔ max ≤ Z.of_nat (length (pool iPool)))
    ∧ pool iPool'
      = (if decide (max ≤ Z.of_nat (length (pool iPool))) then pool iPool
         else pool iPool ++ [driver]).
Proof.
  intros Hp Hd Hst Hq.
  assert (dequeueClient (objects w) (connectionQueue iPool) = None) as Hnone.
  { apply dequeueClient_none. eapply Forall_impl; [exact Hq|].
    intros c Hc. by apply skipped_true_iff. }
  pose (iPool1 := set_maxIdleConnections max iPool).
  destruct (decide (max ≤ Z.of_nat (length (pool iPool)))) as [Hfull|Hroom].
  - eexists. eexists. eexists.
    split; [by apply setMaxIdleConnections_registered|]. split; [done|].
    split; [done|]. split; [apply lookup_insert_eq|]. split.
    { apply (pushDatabaseBack_destroy _ _ _ iPool1 st);
        [apply lookup_insert_eq|exact Hd|exact Hst|exact Hnone|exact Hfull]. }
    simpl. split; [apply lookup_insert_eq|]. split; [|done].
    split; [done|]. intros _. apply lookup_delete_eq.
  - eexists. eexists. eexists.
    split; [by apply setMaxIdleConnections_registered|]. split; [done|].
    split; [done|]. split; [apply lookup_insert_eq|]. split.
    { apply (pushDatabaseBack_idle _ _ _ iPool1 st);
        [apply lookup_insert_eq|exact Hd|exact Hst|exact Hnone|simpl; lia]. }
    simpl. split; [apply lookup_insert_eq|]. split; [|done].
    split; [congruence|done].
Qed.

(** ** How acquisition and release compose *)

(** X9. A request queued by a callback-style acquisition at capacity is
    served by the next release of a connected driver, provided no valid
    waiter was queued before it and its receiver, if it gave one, still
    exists: the acquisition calls no continuation, the release calls the
    continuation of the request, and only it, with a handle around the
    released driver; the queue is empty afterwards and neither
    [connectionCount] nor the idle list has changed. *)
Theorem queued_request_is_served_by_next_release
    k receiver poolName driver w iPool st :
  m_connectionPool w !! poolName = Some iPool →
  pool iPool = [] →
  maximuConnections iPool ≠ 0 →
  maximuConnections iPool ≤ connectionCount iPool →
  Forall (λ c, ¬ validWaiter (objects w) c) (connectionQueue iPool) →
  (receiver = None ∨ ∃ o, receiver = Some o ∧ o ∈ objects w) →
  heap w !! driver = Some st → st ≠ Disconnected →
  ∃ r1 r2,
    databaseCb (Some k) receiver poolName w = Some r1
    ∧ events r1 = [Log QtInfoMsg "Maximum number of connections reached, queuing"]
    ∧ pushDatabaseBack poolName driver (world r1) = Some r2
    ∧ events r2 = [Call ClientCall k (wrap poolName driver)]
    ∧ m_connectionPool (world r2) !! poolName = Some (set_connectionQueue [] iPool)
    ∧ heap (world r2) = heap w.
Proof.
  intros Hp Hidle Hnz Hmax Hq Hrecv Hd Hst.
  assert (exhausted iPool = true) as Hex by (by apply exhausted_true_iff).
  set (client := {| cb := Some k; receiver := receiver;
                    checkReceiver := bool_decide (receiver ≠ None) |}).
  assert (skipped (objects w) client = false) as Hclient.
  { apply skipped_false_iff. split; [|by exists k]. simpl.
    destruct Hrecv as [->|Halive]; [left|by right].
    by apply bool_decide_eq_false_2; intros []. }
  eexists. eexists.
  split; [by apply databaseCb_queued|]. split; [done|]. split.
  { apply (pushDatabaseBack_handoff _ _ _
             (set_connectionQueue (connectionQueue iPool ++ [client]) iPool)
             st client [] k); try done.
    - apply lookup_insert_eq.
    - simpl. apply dequeueClient_first; [|done].
      eapply Forall_impl; [exact Hq|]. intros c Hc. by apply skipped_true_iff. }
  simpl. split; [done|]. split; [|done].
  by rewrite lookup_insert_eq.
Qed.

(** X10. A connected driver that a release puts on the idle list is the
    driver the next acquisition hands out: the release deletes nothing, the
    acquisition makes nothing and returns a handle around the same driver,
    and afterwards the pool is as before the release, with the invalid
    waiters gone from the queue. *)
Theorem released_driver_is_reused_first poolName driver w iPool st :
  m_connectionPool w !! poolName = Some iPool →
  heap w !! driver = Some st → st ≠ Disconnected →
  Forall (λ c, ¬ validWaiter (objects w) c) (connectionQueue iPool) →
  Z.of_nat (length (pool iPool)) < maxIdleConnections iPool →
  ∃ r1 r2,
    pushDatabaseBack poolName driver w = Some r1
    ∧ events r1 = [Log QtDebugMsg "Returning database connection to pool"]
    ∧ database poolName (world r1) = Some r2
    ∧ value r2 = wrap poolName driver
    ∧ events r2
      = Log QtDebugMsg "Reusing a database connection from pool"
        :: calls ReuseCall (reuseCb iPool) (wrap poolName driver)
        ++ [Open (wrap poolName driver)]
    ∧ m_connectionPool (world r2) !! poolName = Some (set_connectionQueue [] iPool)
    ∧ heap (world r2) = heap w
    ∧ allocated (world r2) = allocated w.
Proof.
  intros Hp Hd Hst Hq Hroom.
  assert (dequeueClient (objects w) (connectionQueue iPool) = None) as Hnone.
  { apply dequeueClient_none. eapply Forall_impl; [exact Hq|].
    intros c Hc. by apply skipped_true_iff. }
  eexists. eexists.
  split; [by apply (pushDatabaseBack_idle _ _ _ iPool st)|]. split; [done|].
  split.
  { apply (database_reuse _ _
             (set_pool (pool iPool ++ [driver]) (set_connectionQueue [] iPool))
             (pool iPool) driver); [apply lookup_insert_eq|done]. }
  simpl. split; [done|]. split; [done|]. split; [|done].
  by rewrite lookup_insert_eq.
Qed.

(** X11. A driver released after its pool was removed and a pool was created
    again under the same name is booked on the new pool, which never made it:
    a disconnected driver is deleted (the delete is reported and the object
    is gone) and takes the new pool's [connectionCount] to -1; any other
    driver is not deleted and becomes the new pool's idle driver while its
    [connectionCount] stays 0. *)
Theorem release_after_recreation_is_booked_on_new_pool
    factory poolName driver w st :
  heap w !! driver = Some st →
  ∃ r0 r1 r2,
    remove poolName w = Some r0
    ∧ create factory poolName (world r0) = Some r1
    ∧ pushDatabaseBack poolName driver (world r1) = Some r2
    ∧ events r2
      = (if decide (st = Disconnected)
         then [Log QtDebugMsg "Deleting database connection as is not open";
               Delete driver]
         else [Log QtDebugMsg "Returning database connection to pool"])
    ∧ heap (world r2)
      = (if decide (st = Disconnected) then delete driver (heap w) else heap w)
    ∧ m_connectionPool (world r2) !! poolName
      = Some (if decide (st = Disconnected)
              then set_connectionCount (-1) (newPool factory)
              else set_pool [driver] (newPool factory))
    ∧ currentConnections poolName (world r2)
      = Some (mkResult (if decide (st = Disconnected) then -1 else 0) (world r2) []).
Proof.
  intros Hd.
  set (w0 := set_m_connectionPool (delete poolName (m_connectionPool w)) w).
  set (w1 := set_m_connectionPool
               (<[poolName := newPool factory]> (m_connectionPool w0)) w0).
  assert (create factory poolName w0 = Some (mkResult tt w1 [])) as Hr1.
  { unfold create. unfold_m. simpl. by rewrite lookup_delete_eq. }
  assert (m_connectionPool w1 !! poolName = Some (newPool factory)) as Hp1
    by apply lookup_insert_eq.
  assert (heap w1 !! driver = Some st) as Hd1 by done.
  exists (mkResult tt w0 []), (mkResult tt w1 []).
  destruct (decide (st = Disconnected)) as [->|Hst].
  - eexists. split; [reflexivity|]. split; [exact Hr1|].
    split; [by apply (pushDatabaseBack_disconnected _ _ w1)|].
    simpl. split; [done|]. split; [done|]. split; [by rewrite lookup_insert_eq|].
    unfold currentConnections. unfold_m. simpl. by rewrite lookup_insert_eq.
  - eexists. split; [reflexivity|]. split; [exact Hr1|].
    split.
    { by apply (pushDatabaseBack_idle _ _ w1 (newPool factory) st). }
    simpl. split; [done|]. split; [done|]. split; [by rewrite lookup_insert_eq|].
    unfold currentConnections. unfold_m. simpl. by rewrite lookup_insert_eq.
Qed.

(** ** Pools and names *)

(** X12. Pools are separate: a step changes no pool but the one it
    addresses. A release addresses the pool its handle came from; what the
    environment does to connections and receivers addresses none. *)
Theorem step_leaves_other_pools_alone op w r other :
  step op w = Some r →
  target op ≠ Some other →
  m_connectionPool (world r) !! other = m_connectionPool w !! other.
Proof.
  intros Hr Ht. step_cases Hr; simpl in *;
    rewrite ?lookup_insert_ne by congruence; done.
Qed.

(** X13. Names are registered by [create] alone: after any other step the
    registered names are the same as before, and after [create] they are the
    same plus the created one. No acquisition, release or setter makes a
    pool, and none drops one. *)
Theorem step_registers_only_by_create op w r :
  step op w = Some r →
  dom (m_connectionPool (world r)) = dom (m_connectionPool w) ∪ registers op.
Proof.
  intros Hr. step_cases Hr; simpl in *;
    rewrite ?dom_insert_L, ?union_empty_r_L; try done;
    try (apply subseteq_union_1_L, singleton_subseteq_l; by eapply elem_of_dom_2).
  all: rewrite (union_comm_L _ {[poolName]}); try done.
  symmetry. apply subseteq_union_1_L, singleton_subseteq_l. by eapply elem_of_dom_2.
Qed.

(** X14. Driver objects go only by the release of a handle around them, and
    come only by an acquisition: if a step ends the life of a driver, the
    step is the release of a handle around that driver and reports the
    delete; if a step brings a driver to life, the step is an acquisition,
    the driver sits at the next fresh address and the call of the factory is
    reported. *)
Theorem drivers_go_by_release_and_come_by_acquisition op w r driver :
  step op w = Some r →
  (is_Some (heap w !! driver) → heap (world r) !! driver = None →
     (∃ poolName, op = Release {| ptr := driver; deleterPool := poolName |})
     ∧ Delete driver ∈ events r)
  ∧ (heap w !! driver = None → is_Some (heap (world r) !! driver) →
     driver = allocated w
     ∧ (∃ poolName,
          op = Acquire poolName ∨ ∃ cb receiver, op = AcquireCb cb receiver poolName)
     ∧ ∃ factory, CreateRawDriver factory driver ∈ events r).
Proof.
  intros Hr. step_cases Hr; simpl in *; (split; intros Hbefore Hafter);
    try (rewrite Hafter in Hbefore; by destruct Hbefore);
    try (rewrite Hbefore in Hafter; by destruct Hafter).
  all: try match goal with
    | H : <[_ := _]> _ !! _ = None |- _ =>
        apply lookup_insert_None in H as [H ?]; rewrite H in Hbefore;
        by destruct Hbefore
    end.
  all: try match goal with
    | H : delete _ _ !! _ = None |- _ =>
        apply lookup_delete_None in H as [H|H];
        [subst driver; split; [exists (deleterPool h); by destruct h|set_solver]
        |rewrite H in Hbefore; by destruct Hbefore]
    end.
  all: try match goal with
    | H : is_Some (delete _ _ !! _) |- _ =>
        rewrite lookup_delete_is_Some in H; destruct H as [_ H];
        rewrite Hbefore in H; by destruct H
    end.
  all: try match goal with
    | H : is_Some (<[?k := _]> _ !! _) |- _ =>
        rewrite lookup_insert_is_Some in H; destruct H as [H|[_ H]];
        [|rewrite Hbefore in H; by destruct H]
    end.
  all: try congruence.
  all: subst driver; split; [done|]; split; [eauto 6|]; eexists;
    first [by left | right; by left].
Qed.

(** ** No waiter while a driver is idle *)

Lemma perPool_update (P : APoolInternal → Prop) (m : gmap string APoolInternal)
    poolName iPool' :
  (∀ n p, m !! n = Some p → P p) →
  P iPool' →
  ∀ n p, <[poolName := iPool']> m !! n = Some p → P p.
Proof.
  intros Hm HP n p Hp. destruct (decide (poolName = n)) as [<-|Hne].
  - rewrite lookup_insert_eq in Hp. by simplify_eq.
  - rewrite lookup_insert_ne in Hp by done. by eapply Hm.
Qed.

Lemma step_noIdleWhileWaiting op w r :
  (∀ n p, m_connectionPool w !! n = Some p → noIdleWhileWaiting p) →
  step op w = Some r →
  ∀ n p, m_connectionPool (world r) !! n = Some p → noIdleWhileWaiting p.
Proof.
  intros Hw Hr. step_cases Hr; simpl in *;
    first [exact Hw | apply perPool_update; [exact Hw|]];
    try match goal with
      | Hp : m_connectionPool w !! _ = Some ?iPool |- _ =>
          pose proof (Hw _ _ Hp) as Hcalm
      end;
    unfold noIdleWhileWaiting in *; simpl; auto.
  - (* reuse *) destruct Hcalm as [Hnil|Hnil]; [|auto].
    rewrite Hnil in Hl. by destruct rest.
  - (* reuse, callback style *) destruct Hcalm as [Hnil|Hnil]; [|auto].
    rewrite Hnil in Hl. by destruct rest.
  - (* hand-off *) destruct Hcalm as [Hnil|Hnil]; [auto|].
    by rewrite Hnil in Hq.
Qed.

(** X15. After any sequence of steps from the empty registry, no registered
    pool has both an idle driver and a waiter: a request is queued only when
    the idle list is empty, and a driver is put on the idle list only after
    the queue was drained. *)
Theorem no_waiter_while_a_driver_is_idle ops r poolName iPool :
  run anyTime ops initial = Some r →
  m_connectionPool (world r) !! poolName = Some iPool →
  pool iPool = [] ∨ connectionQueue iPool = [].
Proof.
  intros Hrun Hp.
  assert (∀ n p, m_connectionPool (world r) !! n = Some p → noIdleWhileWaiting p)
    as Hcalm; [|by apply (Hcalm poolName)].
  eapply (run_preserves anyTime
            (λ w, ∀ n p, m_connectionPool w !! n = Some p → noIdleWhileWaiting p));
    [| |exact Hrun].
  - intros op w r' Hw _ Hr'. by eapply step_noIdleWhileWaiting.
  - intros n p Hn. simpl in Hn. by rewrite lookup_empty in Hn.
Qed.

(** ** No driver is held twice, and none is used after its delete *)

Lemma idleDrivers_insert_fresh (m : gmap string APoolInternal) n p :
  m !! n = None → idleDrivers (<[n := p]> m) ≡ₚ pool p ++ idleDrivers m.
Proof.
  intros Hn. unfold idleDrivers. by rewrite map_to_list_insert.
Qed.

Lemma idleDrivers_lookup (m : gmap string APoolInternal) n p :
  m !! n = Some p → idleDrivers m ≡ₚ pool p ++ idleDrivers (delete n m).
Proof.
  intros Hn. unfold idleDrivers. by rewrite <- (map_to_list_delete m n p).
Qed.

Lemma idleDrivers_insert (m : gmap string APoolInternal) n p :
  idleDrivers (<[n := p]> m) ≡ₚ pool p ++ idleDrivers (delete n m).
Proof.
  rewrite <- insert_delete_eq. apply idleDrivers_insert_fresh, lookup_delete_eq.
Qed.

Lemma idleDrivers_same_pool (m : gmap string APoolInternal) n p p' :
  m !! n = Some p → pool p' = pool p →
  idleDrivers (<[n := p']> m) ≡ₚ idleDrivers m.
Proof.
  intros Hn Hpool. by rewrite idleDrivers_insert, (idleDrivers_lookup m n p), Hpool.
Qed.

Lemma owned_removeOne h (l : list SharedDriver) :
  h ∈ l → l ≡ₚ h :: removeOne h l.
Proof.
  induction l as [|x l IH]; intros Hin; [by apply elem_of_nil in Hin|].
  simpl. destruct (decide (h = x)) as [->|Hne]; [done|].
  apply elem_of_cons in Hin as [?|Hin]; [done|].
  rewrite (IH Hin) at 1. apply perm_swap.
Qed.

Lemma sound_moved w w' :
  sound w →
  holders w' ≡ₚ holders w → heap w' = heap w → allocated w' = allocated w →
  sound w'.
Proof.
  intros (Hnodup & Hlive & Hfresh) Hh Hheap Halloc. split; [|split].
  - by rewrite Hh.
  - intros driver. rewrite Hh, Hheap. apply Hlive.
  - intros driver. rewrite Hheap, Halloc. apply Hfresh.
Qed.

Lemma sound_deleted w w' driver :
  sound w →
  holders w ≡ₚ driver :: holders w' →
  heap w' = delete driver (heap w) → allocated w' = allocated w →
  sound w'.
Proof.
  intros (Hnodup & Hlive & Hfresh) Hh Hheap Halloc.
  rewrite Hh in Hnodup. apply NoDup_cons in Hnodup as [Hnotin Hnodup].
  split; [done|]. split.
  - intros driver' Hin. rewrite Hheap, lookup_delete_ne by (by intros ->).
    apply Hlive. rewrite Hh. by right.
  - intros driver'. rewrite Hheap, Halloc, lookup_delete_is_Some.
    intros [_ ?]. by apply Hfresh.
Qed.

Lemma sound_made w w' st :
  sound w →
  holders w' ≡ₚ allocated w :: holders w →
  heap w' = <[allocated w := st]> (heap w) → allocated w' = S (allocated w) →
  sound w'.
Proof.
  intros (Hnodup & Hlive & Hfresh) Hh Hheap Halloc. split; [|split].
  - rewrite Hh. apply NoDup_cons. split; [|done].
    intros Hin. apply Hlive, Hfresh in Hin. lia.
  - intros driver. rewrite Hh, Hheap, lookup_insert_is_Some.
    intros [->|Hin]%elem_of_cons; [by left|].
    destruct (decide (allocated w = driver)); [by left|right]. auto.
  - intros driver. rewrite Hheap, Halloc, lookup_insert_is_Some.
    intros [<-|[_ Hin]]; [lia|]. apply Hfresh in Hin. lia.
Qed.

Lemma sound_state_changed w w' driver st :
  sound w →
  is_Some (heap w !! driver) →
  holders w' = holders w →
  heap w' = <[driver := st]> (heap w) → allocated w' = allocated w →
  sound w'.
Proof.
  intros (Hnodup & Hlive & Hfresh) Hd Hh Hheap Halloc. split; [|split].
  - by rewrite Hh.
  - intros driver'. rewrite Hh, Hheap, lookup_insert_is_Some.
    intros Hin. destruct (decide (driver = driver')); [by left|right]. auto.
  - intros driver'. rewrite Hheap, Halloc, lookup_insert_is_Some.
    intros [<-|[_ Hin]]; by apply Hfresh.
Qed.

Lemma step_sound op w r : sound w → step op w = Some r → sound (world r).
Proof.
  intros Hw Hr. step_cases Hr; simpl in *; try done.
  - (* create *) eapply sound_moved; [exact Hw| |done..].
    unfold holders. simpl. by rewrite idleDrivers_insert_fresh.
  - (* database makes a driver *) eapply sound_made; [exact Hw| |done..].
    unfold holders. simpl. by rewrite (idleDrivers_same_pool _ _ iPool).
  - (* database takes an idle driver *) eapply sound_moved; [exact Hw| |done..].
    unfold holders. simpl.
    rewrite idleDrivers_insert, (idleDrivers_lookup _ _ _ Hp), Hl. simpl.
    solve_Permutation.
  - (* request queued *) eapply sound_moved; [exact Hw| |done..].
    unfold holders. simpl. by rewrite (idleDrivers_same_pool _ _ iPool).
  - eapply sound_made; [exact Hw| |done..].
    unfold holders. simpl. by rewrite (idleDrivers_same_pool _ _ iPool).
  - eapply sound_moved; [exact Hw| |done..].
    unfold holders. simpl.
    rewrite idleDrivers_insert, (idleDrivers_lookup _ _ _ Hp), Hl. simpl.
    solve_Permutation.
  - (* release, disconnected *) eapply sound_deleted; [exact Hw| |done..].
    unfold holders. simpl.
    rewrite (idleDrivers_same_pool _ _ iPool) by done.
    by rewrite (owned_removeOne h (owned w)) at 1.
  - (* release, hand-off *) eapply sound_moved; [exact Hw| |done..].
    unfold holders. simpl.
    rewrite (idleDrivers_same_pool _ _ iPool) by done.
    by rewrite (owned_removeOne h (owned w)) at 2.
  - (* release, idle list full *) eapply sound_deleted; [exact Hw| |done..].
    unfold holders. simpl.
    rewrite (idleDrivers_same_pool _ _ iPool) by done.
    by rewrite (owned_removeOne h (owned w)) at 1.
  - (* release, pooled *) eapply sound_moved; [exact Hw| |done..].
    unfold holders. simpl.
    rewrite idleDrivers_insert, (idleDrivers_lookup _ _ _ Hp). simpl.
    rewrite (owned_removeOne h (owned w)) at 2 by done. simpl.
    solve_Permutation.
  - (* release, pool not registered *) eapply sound_deleted; [exact Hw| |done..].
    unfold holders. simpl. by rewrite (owned_removeOne h (owned w)) at 1.
  - eapply sound_moved; [exact Hw| |done..].
    unfold holders. simpl. by rewrite (idleDrivers_same_pool _ _ iPool).
  - eapply sound_moved; [exact Hw| |done..].
    unfold holders. simpl. by rewrite (idleDrivers_same_pool _ _ iPool).
  - eapply sound_moved; [exact Hw| |done..].
    unfold holders. simpl. by rewrite (idleDrivers_same_pool _ _ iPool).
  - eapply sound_moved; [exact Hw| |done..].
    unfold holders. simpl. by rewrite (idleDrivers_same_pool _ _ iPool).
  - eapply sound_state_changed; [exact Hw| |done..]. by rewrite Hd.
Qed.

Lemma elem_of_idleDrivers (m : gmap string APoolInternal) n p driver :
  m !! n = Some p → driver ∈ pool p → driver ∈ idleDrivers m.
Proof.
  intros Hn Hin. rewrite (idleDrivers_lookup m n p Hn).
  apply elem_of_app. by left.
Qed.

Lemma run_sound ops r : run anyTime ops initial = Some r → sound (world r).
Proof.
  intros Hrun.
  eapply (run_preserves anyTime sound); [| |exact Hrun].
  - intros op w r' Hw _ Hr'. by eapply step_sound.
  - split; [|split].
    + unfold holders, idleDrivers. simpl. rewrite map_to_list_empty. constructor.
    + unfold holders, idleDrivers. simpl. rewrite map_to_list_empty.
      intros driver Hin. by apply elem_of_nil in Hin.
    + intros driver [st Hst]. simpl in Hst. by rewrite lookup_empty in Hst.
Qed.

(** X16. After any sequence of steps from the empty registry, no driver is
    held twice and every held driver is a live object: the drivers of the
    handed-out handles and of the idle lists are pairwise different, so no
    two handles share a driver and no idle driver is also checked out, and
    none of them has been deleted. *)
Theorem held_drivers_are_live_and_unique ops r :
  run anyTime ops initial = Some r →
  NoDup (holders (world r))
  ∧ NoDup (ptr <$> owned (world r))
  ∧ (∀ h, h ∈ owned (world r) → is_Some (heap (world r) !! ptr h))
  ∧ (∀ poolName iPool driver,
       m_connectionPool (world r) !! poolName = Some iPool →
       driver ∈ pool iPool →
       is_Some (heap (world r) !! driver)
       ∧ ∀ h, h ∈ owned (world r) → ptr h ≠ driver).
Proof.
  intros Hrun. destruct (run_sound _ _ Hrun) as (Hnodup & Hlive & _).
  split; [done|]. unfold holders in *.
  pose proof Hnodup as (Hptrs & Hdisjoint & _)%NoDup_app.
  split; [done|]. split.
  - intros h Hh. apply Hlive, elem_of_app. left.
    apply list_elem_of_fmap. by exists h.
  - intros poolName iPool driver Hp Hin.
    pose proof (elem_of_idleDrivers _ _ _ _ Hp Hin) as Hidle. split.
    + apply Hlive, elem_of_app. by right.
    + intros h Hh Heq. apply (Hdisjoint driver); [|done].
      apply list_elem_of_fmap. by exists h.
Qed.

Lemma pushDatabaseBack_total connectionName driver w :
  is_Some (heap w !! driver) → is_Some (pushDatabaseBack connectionName driver w).
Proof.
  intros [st Hd].
  destruct (m_connectionPool w !! connectionName) as [iPool|] eqn:Hp.
  2:{ by rewrite (pushDatabaseBack_unregistered _ _ _ st). }
  destruct (decide (st = Disconnected)) as [->|Hst].
  { by rewrite (pushDatabaseBack_disconnected _ _ _ iPool). }
  destruct (dequeueClient (objects w) (connectionQueue iPool))
    as [[client queue']|] eqn:Hq.
  - destruct (dequeueClient_Some _ _ _ _ Hq) as (_ & _ & _ & Hv).
    apply skipped_false_iff in Hv as [_ [k Hk]].
    by rewrite (pushDatabaseBack_handoff _ _ _ iPool st client queue' k).
  - destruct (decide (maxIdleConnections iPool ≤ Z.of_nat (length (pool iPool)))).
    + by rewrite (pushDatabaseBack_destroy _ _ _ iPool st).
    + by rewrite (pushDatabaseBack_idle _ _ _ iPool st) by (done || lia).
Qed.

Lemma database_total poolName w : is_Some (database poolName w).
Proof.
  destruct (m_connectionPool w !! poolName) as [iPool|] eqn:Hp.
  2:{ by rewrite database_not_found. }
  destruct (decide (pool iPool = [])) as [Hidle|Hidle].
  - destruct (exhausted iPool) eqn:Hex.
    + by rewrite (database_exhausted _ _ iPool).
    + by rewrite (database_create _ _ iPool).
  - destruct (nonempty_snoc _ Hidle) as (rest & driver & Hl).
    by rewrite (database_reuse _ _ iPool rest driver).
Qed.

Lemma databaseCb_total cb receiver poolName w :
  is_Some (databaseCb cb receiver poolName w).
Proof.
  destruct (m_connectionPool w !! poolName) as [iPool|] eqn:Hp.
  2:{ by rewrite databaseCb_not_found. }
  destruct (decide (pool iPool = [])) as [Hidle|Hidle].
  - destruct (exhausted iPool) eqn:Hex.
    + by rewrite (databaseCb_queued _ _ _ _ iPool).
    + by rewrite (databaseCb_create _ _ _ _ iPool).
  - destruct (nonempty_snoc _ Hidle) as (rest & driver & Hl).
    by rewrite (databaseCb_reuse _ _ _ _ iPool rest driver).
Qed.

(** X17. After any sequence of steps from the empty registry, every step the
    program can take has a result: the deleter of any handle it still holds
    runs without reading or deleting a dead driver and without calling an
    empty continuation, and every call of [create], [database] (in both
    styles) and of the setters returns. *)
Theorem every_possible_step_has_a_result ops r op :
  run anyTime ops initial = Some r →
  possible op (world r) →
  is_Some (step op (world r)).
Proof.
  intros Hrun Hop. destruct (run_sound _ _ Hrun) as (_ & Hlive & _).
  destruct op as
    [factory poolName|poolName|cb receiver poolName|h|max poolName|max poolName
    |cb poolName|cb poolName|driver st|o|o]; simpl in *.
  - unfold create. unfold_m. simpl.
    by destruct (m_connectionPool (world r) !! poolName).
  - unfold mbind, M_bind.
    by destruct (database_total poolName (world r)) as [r0 ->].
  - apply databaseCb_total.
  - unfold release. rewrite decide_True by done.
    apply pushDatabaseBack_total. simpl. apply Hlive, elem_of_app. left.
    apply list_elem_of_fmap. by exists h.
  - unfold setMaxIdleConnections. unfold_m. simpl.
    by destruct (m_connectionPool (world r) !! poolName).
  - unfold setMaxConnections. unfold_m. simpl.
    by destruct (m_connectionPool (world r) !! poolName).
  - unfold setSetupCallback. unfold_m. simpl.
    by destruct (m_connectionPool (world r) !! poolName).
  - unfold setReuseCallback. unfold_m. simpl.
    by destruct (m_connectionPool (world r) !! poolName).
  - unfold driverState. by destruct Hop as [st' ->].
  - done.
  - done.
Qed.

(** X18. After any sequence of steps from the empty registry,
    [currentConnections] changes nothing and returns, for a registered pool,
    the size of its idle list plus the number of its connections that are
    checked out, which is never negative, and 0 for any other name. *)
Theorem currentConnections_counts_idle_and_checked_out ops r poolName :
  run anyTime ops initial = Some r →
  ∃ n,
    currentConnections poolName (world r) = Some (mkResult n (world r) [])
    ∧ 0 ≤ n
    ∧ n = match m_connectionPool (world r) !! poolName with
          | Some iPool =>
              Z.of_nat (length (pool iPool)) + Z.of_nat (checkedOut poolName (world r))
          | None => 0
          end.
Proof.
  intros Hrun.
  assert (consistent (world r)) as [Hc _].
  { eapply (run_preserves anyTime consistent);
      [|apply initial_consistent|exact Hrun].
    intros op w r' Hw _ Hr'. by eapply step_consistent. }
  unfold currentConnections. unfold_m. simpl.
  destruct (m_connectionPool (world r) !! poolName) as [iPool|] eqn:Hp.
  - specialize (Hc _ _ Hp). unfold liveCountInv in Hc.
    exists (connectionCount iPool). split; [done|]. split; [lia|done].
  - exists 0. by repeat split.
Qed.

(** ** The theorems at work on the example worlds *)

Import Examples.

(** Driver 0 comes back to the busy pool: the expired and the mute waiter
    are dropped, continuation 5 gets the driver, waiter [second] stays. *)
Lemma release_hands_driver_to_first_valid_waiter_witness :
  ∃ r,
    pushDatabaseBack "p" 0 (busy [expired; mute; first; second] Connected) = Some r
    ∧ events r = [Call ClientCall 5 (wrap "p" 0)]
    ∧ m_connectionPool (world r)
      = <["p" := busyPool [second]]>
          (m_connectionPool (busy [expired; mute; first; second] Connected)).
Proof.
  destruct (release_hands_driver_to_first_valid_waiter "p" 0%nat
              (busy [expired; mute; first; second] Connected)
              (busyPool [expired; mute; first; second]) Connected
              [expired; mute] first [second])
    as (k & r & iPool' & Hk & Hr & He & _ & Hm & HiPool & _).
  - reflexivity.
  - reflexivity.
  - discriminate.
  - reflexivity.
  - repeat constructor; apply skipped_true_iff; vm_compute; reflexivity.
  - apply skipped_false_iff. vm_compute. reflexivity.
  - exists r. simpl in Hk. injection Hk as <-.
    split; [exact Hr|]. split; [exact He|].
    rewrite Hm, HiPool. reflexivity.
Defined.

(** Driver 0 comes back to the busy pool while nobody valid waits: it is
    pooled, the count stays 1. *)
Lemma release_without_waiter_pools_or_destroys_witness :
  ∃ r iPool',
    pushDatabaseBack "p" 0 (busy [expired; mute] Connected) = Some r
    ∧ m_connectionPool (world r)
      = <["p" := iPool']> (m_connectionPool (busy [expired; mute] Connected))
    ∧ connectionQueue iPool' = []
    ∧ events r = [Log QtDebugMsg "Returning database connection to pool"]
    ∧ connectionCount iPool' = 1
    ∧ pool iPool' = [0%nat].
Proof.
  destruct (release_without_waiter_pools_or_destroys "p" 0%nat
              (busy [expired; mute] Connected)
              (busyPool [expired; mute]) Connected)
    as (r & iPool' & Hr & Hm & Hq & _ & Hif).
  - reflexivity.
  - reflexivity.
  - discriminate.
  - repeat constructor; apply skipped_true_iff; vm_compute; reflexivity.
  - exists r, iPool'.
    destruct (decide (maxIdleConnections (busyPool [expired; mute])
                      ≤ Z.of_nat (length (pool (busyPool [expired; mute])))))
      as [Hfull|_].
    + simpl in Hfull. lia.
    + destruct Hif as (He & _ & Hc & Hpool). by repeat split.
Defined.

(** Driver 0 comes back disconnected: it is deleted, the count drops to 0,
    and the waiter stays queued. *)
Lemma release_of_disconnected_driver_destroys_it_witness :
  ∃ r iPool',
    pushDatabaseBack "p" 0 (busy [first] Disconnected) = Some r
    ∧ events r
      = [Log QtDebugMsg "Deleting database connection as is not open"; Delete 0]
    ∧ m_connectionPool (world r)
      = <["p" := iPool']> (m_connectionPool (busy [first] Disconnected))
    ∧ connectionCount iPool' = 0
    ∧ connectionQueue iPool' = [first]
    ∧ pool iPool' = [].
Proof.
  destruct (release_of_disconnected_driver_destroys_it "p" 0%nat
              (busy [first] Disconnected) (busyPool [first]))
    as (r & iPool' & Hr & He & _ & Hm & _ & Hc & Hq & Hpool & _).
  - reflexivity.
  - reflexivity.
  - exists r, iPool'. by repeat split.
Defined.

(** Pool "p" is removed while driver 0 is out; driver 0 then comes back. *)
Lemma release_into_removed_pool_destroys_driver_witness :
  ∃ w r,
    remove "p" idleOne = Some (mkResult tt w [])
    ∧ pushDatabaseBack "p" 0 w = Some r
    ∧ events r = [Delete 0]
    ∧ m_connectionPool (world r) !! "p" = None.
Proof.
  eexists.
  destruct (release_into_removed_pool_destroys_driver "p" 0%nat
              (set_m_connectionPool (delete "p" (m_connectionPool idleOne)) idleOne)
              Connected)
    as (r & Hr & He & _ & _ & Hnone & _).
  - vm_compute. reflexivity.
  - reflexivity.
  - exists r. split; [reflexivity|]. by repeat split.
Defined.

Lemma create_of_registered_name_is_noop_witness :
  create 8 "p" idleOne
  = Some (mkResult tt idleOne
      [Log QtWarningMsg "Ignoring addDatabase, connectionName already available"]).
Proof.
  apply (create_of_registered_name_is_noop 8%nat "p" idleOne idleOnePool).
  reflexivity.
Defined.

Lemma remove_erases_entry_only_witness :
  ∃ r,
    remove "p" idleOne = Some r
    ∧ events r = []
    ∧ m_connectionPool (world r) !! "p" = None
    ∧ heap (world r) !! 1%nat = Some Connected.
Proof.
  destruct (remove_erases_entry_only "p" idleOne idleOnePool)
    as (r & Hr & He & _ & Hnone & _ & Hidle & _).
  - reflexivity.
  - exists r. split; [exact Hr|]. split; [exact He|]. split; [exact Hnone|].
    rewrite (Hidle 1%nat); [reflexivity|]. simpl. left.
Defined.

Lemma database_at_capacity_returns_empty_handle_witness :
  database "p" (busy [] Connected)
  = Some (mkResult {| d := None |} (busy [] Connected)
      [Log QtWarningMsg "Maximum number of connections reached";
       Open {| d := None |}]).
Proof.
  apply (database_at_capacity_returns_empty_handle "p" (busy [] Connected)
           (busyPool [])).
  - reflexivity.
  - reflexivity.
  - simpl. lia.
  - simpl. lia.
Defined.

(** Driver 1 is idle in pool "p", whose reuse hook is 9. *)
Lemma acquisition_reuses_last_idle_or_creates_witness :
  database "p" idleOne
  = Some (mkResult (wrap "p" 1) (reused "p" idleOnePool [] 1 idleOne)
      [Log QtDebugMsg "Reusing a database connection from pool";
       Call ReuseCall 9 (wrap "p" 1); Open (wrap "p" 1)])
  ∧ databaseCb (Some 5%nat) None "p" idleOne
    = Some (mkResult tt (reused "p" idleOnePool [] 1 idleOne)
        [Log QtDebugMsg "Reusing a database connection from pool";
         Call ReuseCall 9 (wrap "p" 1); Open (wrap "p" 1);
         Call ClientCall 5 (wrap "p" 1)]).
Proof.
  destruct (acquisition_reuses_last_idle_or_creates "p" idleOne idleOnePool
              (Some 5%nat) None) as [Hreuse _].
  - reflexivity.
  - apply (Hreuse [] 1%nat). reflexivity.
Defined.

Lemma hooks_run_only_on_acquisition_witness :
  (∀ r, step (Release h0) (busy [first] Connected) = Some r →
        hookCalls (events r) = [])
  ∧ (∀ r, step (Acquire "p") idleOne = Some r →
          hookCalls (events r) = [Call ReuseCall 9 (wrap "p" 1)]).
Proof.
  destruct hooks_run_only_on_acquisition as (_ & Hrelease & Hstep).
  split.
  - intros r Hr. exact (Hrelease h0 _ r Hr).
  - intros r Hr. exact (Hstep (Acquire "p") idleOne r Hr).
Defined.

Lemma pool_invariants_along_runs_witness :
  ∃ r p q,
    run (sparesMaxIdle "p") MoreExamples.lowerOtherPool initial = Some r
    ∧ run (sparesMaxTotal "p") MoreExamples.lowerOtherPool initial = Some r
    ∧ run anyTime MoreExamples.lowerOtherPool initial = Some r
    ∧ m_connectionPool (world r) !! "p" = Some p
    ∧ m_connectionPool (world r) !! "q" = Some q
    ∧ pool p = [2%nat]
    ∧ liveCountInv "p" p (world r)
    ∧ maxIdleInv p ∧ maxTotalInv p
    ∧ liveCountInv "q" q (world r)
    ∧ ¬ maxTotalInv q.
Proof.
  destruct pool_invariants_along_runs as (Hlive & _ & _ & Hidle & Htotal).
  eexists. eexists. eexists.
  split; [vm_compute; reflexivity|].
  split; [vm_compute; reflexivity|].
  split; [vm_compute; reflexivity|].
  split; [vm_compute; reflexivity|].
  split; [vm_compute; reflexivity|].
  split; [reflexivity|].
  split; [eapply (Hlive MoreExamples.lowerOtherPool); vm_compute; reflexivity|].
  split; [eapply (Hidle MoreExamples.lowerOtherPool _ "p"); vm_compute; reflexivity|].
  split; [eapply (Htotal MoreExamples.lowerOtherPool _ "p"); vm_compute; reflexivity|].
  split; [eapply (Hlive MoreExamples.lowerOtherPool); vm_compute; reflexivity|].
  unfold maxTotalInv. simpl. lia.
Defined.


Lemma remove_is_idempotent_witness :
  ∃ r,
    remove "q" idleOne = Some r
    ∧ world r = idleOne
    ∧ remove "q" (world r) = Some (mkResult tt (world r) []).
Proof.
  destruct (remove_is_idempotent "q" idleOne)
    as (r & Hr & _ & _ & Hsame & Hagain & _).
  exists r. split; [exact Hr|]. split; [|exact Hagain].
  apply Hsame. reflexivity.
Defined.

Lemma databaseCb_at_capacity_queues_request_witness :
  ∃ r iPool',
    databaseCb (Some 6%nat) (Some 3%nat) "p" (busy [first] Connected) = Some r
    ∧ m_connectionPool (world r)
      = <["p" := iPool']> (m_connectionPool (busy [first] Connected))
    ∧ connectionQueue iPool'
      = [first; {| cb := Some 6%nat; receiver := Some 3%nat; checkReceiver := true |}]
    ∧ connectionCount iPool' = 1.
Proof.
  destruct (databaseCb_at_capacity_queues_request (Some 6%nat) (Some 3%nat) "p"
              (busy [first] Connected) (busyPool [first]))
    as (r & iPool' & Hr & _ & Hm & Hq & _ & Hc & _).
  - reflexivity.
  - reflexivity.
  - simpl. lia.
  - simpl. lia.
  - exists r, iPool'. by repeat split.
Defined.

Lemma acquisition_from_unregistered_pool_witness :
  databaseCb (Some 5%nat) None "q" idleOne
  = Some (mkResult tt idleOne
      [Log QtCriticalMsg "Database pool NOT FOUND"; Open {| d := None |};
       Call ClientCall 5 {| d := None |}]).
Proof.
  destruct (acquisition_from_unregistered_pool (Some 5%nat) None "q" idleOne)
    as [_ Hcb].
  - reflexivity.
  - exact Hcb.
Defined.

Lemma configuration_of_unregistered_pool_changes_nothing_witness :
  setReuseCallback (Some 9%nat) "q" idleOne
  = Some (mkResult tt idleOne
      [Log QtCriticalMsg
         "Failed to set maximum connections: Database pool NOT FOUND"]).
Proof.
  destruct (configuration_of_unregistered_pool_changes_nothing 3 (Some 9%nat) "q"
              idleOne) as (_ & _ & _ & _ & _ & Hreuse).
  - reflexivity.
  - exact Hreuse.
Defined.

Lemma hooks_take_effect_on_next_acquisition_witness :
  ∃ r2 r r',
    setReuseCallback (Some 4%nat) "p" idleOne = Some r2
    ∧ database "p" (world r2) = Some r
    ∧ events r
      = [Log QtDebugMsg "Reusing a database connection from pool";
         Call ReuseCall 4 (wrap "p" 1); Open (wrap "p" 1)]
    ∧ databaseCb (Some 5%nat) None "p" (world r2) = Some r'
    ∧ events r'
      = [Log QtDebugMsg "Reusing a database connection from pool";
         Call ReuseCall 4 (wrap "p" 1); Open (wrap "p" 1);
         Call ClientCall 5 (wrap "p" 1)].
Proof.
  destruct (hooks_take_effect_on_next_acquisition (Some 4%nat) "p" idleOne
              idleOnePool) as (r1 & r2 & _ & _ & Hr2 & _ & _ & Hreuse).
  - reflexivity.
  - destruct (Hreuse [] 1%nat) as ((r & Hr & _ & He) & Hcb); [reflexivity|].
    destruct (Hcb (Some 5%nat) None) as (r' & Hr' & He').
    exists r2, r, r'. by repeat split.
Defined.

(** The pool at its limit of one: lifting the limit lets the next
    acquisition make driver 1. *)
Lemma setMaxConnections_decides_next_acquisition_witness :
  ∃ r1 r,
    setMaxConnections 0 "p" (busy [] Connected) = Some r1
    ∧ database "p" (world r1) = Some r
    ∧ value r = wrap "p" 1.
Proof.
  destruct (setMaxConnections_decides_next_acquisition 0 "p" (busy [] Connected)
              (busyPool [])) as (r1 & r & Hr1 & _ & _ & Hr & Hnone & Hsome).
  - reflexivity.
  - reflexivity.
  - exists r1, r. split; [exact Hr1|]. split; [exact Hr|].
    apply Hsome. intros Hd. apply Hnone in Hd as [Hd _]. by apply Hd.
Defined.

(** With [maxIdle] set to 0 the driver that comes back is deleted. *)
Lemma setMaxIdleConnections_decides_next_release_witness :
  ∃ r1 r,
    setMaxIdleConnections 0 "p" (busy [] Connected) = Some r1
    ∧ pushDatabaseBack "p" 0 (world r1) = Some r
    ∧ heap (world r) !! 0%nat = None.
Proof.
  destruct (setMaxIdleConnections_decides_next_release 0 "p" 0%nat
              (busy [] Connected) (busyPool []) Connected)
    as (r1 & r & iPool' & Hr1 & _ & _ & _ & Hr & _ & Hgone & _).
  - reflexivity.
  - reflexivity.
  - discriminate.
  - constructor.
  - exists r1, r. split; [exact Hr1|]. split; [exact Hr|].
    apply Hgone. simpl. lia.
Defined.

Lemma queued_request_is_served_by_next_release_witness :
  ∃ r1 r2,
    databaseCb (Some 6%nat) None "p" (busy [mute] Connected) = Some r1
    ∧ pushDatabaseBack "p" 0 (world r1) = Some r2
    ∧ events r2 = [Call ClientCall 6 (wrap "p" 0)].
Proof.
  destruct (queued_request_is_served_by_next_release 6%nat None "p" 0%nat
              (busy [mute] Connected) (busyPool [mute]) Connected)
    as (r1 & r2 & Hr1 & _ & Hr2 & He & _).
  - reflexivity.
  - reflexivity.
  - simpl. lia.
  - simpl. lia.
  - repeat constructor. apply skipped_true_iff. vm_compute. reflexivity.
  - left. reflexivity.
  - reflexivity.
  - discriminate.
  - exists r1, r2. by repeat split.
Defined.

Lemma released_driver_is_reused_first_witness :
  ∃ r1 r2,
    pushDatabaseBack "p" 0 (busy [] Connected) = Some r1
    ∧ database "p" (world r1) = Some r2
    ∧ value r2 = wrap "p" 0.
Proof.
  destruct (released_driver_is_reused_first "p" 0%nat (busy [] Connected)
              (busyPool []) Connected)
    as (r1 & r2 & Hr1 & _ & Hr2 & Hv & _).
  - reflexivity.
  - reflexivity.
  - discriminate.
  - constructor.
  - simpl. lia.
  - exists r1, r2. by repeat split.
Defined.

(** Pool "p" is removed and created again while driver 0 is out: driver 0
    ends up idle in the new pool, whose count is 0. *)
Lemma release_after_recreation_is_booked_on_new_pool_witness :
  ∃ r0 r1 r2,
    remove "p" idleOne = Some r0
    ∧ create 8 "p" (world r0) = Some r1
    ∧ pushDatabaseBack "p" 0 (world r1) = Some r2
    ∧ m_connectionPool (world r2) !! "p" = Some (set_pool [0%nat] (newPool 8)).
Proof.
  destruct (release_after_recreation_is_booked_on_new_pool 8%nat "p" 0%nat idleOne
              Connected) as (r0 & r1 & r2 & Hr0 & Hr1 & Hr2 & _ & _ & Hp & _).
  - reflexivity.
  - exists r0, r1, r2. by repeat split.
Defined.

Lemma step_leaves_other_pools_alone_witness :
  ∃ r,
    step (Acquire "p") MoreExamples.twoPools = Some r
    ∧ m_connectionPool (world r) !! "q" = Some (newPool 8).
Proof.
  eexists. split; [vm_compute; reflexivity|].
  etransitivity.
  - eapply (step_leaves_other_pools_alone (Acquire "p") MoreExamples.twoPools).
    + vm_compute. reflexivity.
    + discriminate.
  - reflexivity.
Defined.

Lemma step_registers_only_by_create_witness :
  ∃ r,
    step (Create 8 "q") idleOne = Some r
    ∧ dom (m_connectionPool (world r)) = dom (m_connectionPool idleOne) ∪ {[ "q" ]}.
Proof.
  eexists. split; [vm_compute; reflexivity|].
  apply (step_registers_only_by_create (Create 8 "q") idleOne).
  vm_compute. reflexivity.
Defined.

Lemma drivers_go_by_release_and_come_by_acquisition_witness :
  ∃ r,
    step (Release h0) (busy [] Disconnected) = Some r
    ∧ heap (world r) !! 0%nat = None
    ∧ Delete 0 ∈ events r.
Proof.
  eexists. split; [vm_compute; reflexivity|]. split; [vm_compute; reflexivity|].
  eapply (drivers_go_by_release_and_come_by_acquisition (Release h0)
            (busy [] Disconnected) _ 0%nat).
  - vm_compute. reflexivity.
  - eexists. reflexivity.
  - vm_compute. reflexivity.
Defined.

Lemma no_waiter_while_a_driver_is_idle_witness :
  ∃ r iPool,
    run anyTime busyDay initial = Some r
    ∧ m_connectionPool (world r) !! "p" = Some iPool
    ∧ (pool iPool = [] ∨ connectionQueue iPool = []).
Proof.
  eexists. eexists. split; [vm_compute; reflexivity|].
  split; [vm_compute; reflexivity|].
  eapply (no_waiter_while_a_driver_is_idle busyDay _ "p"); vm_compute; reflexivity.
Defined.

Lemma held_drivers_are_live_and_unique_witness :
  ∃ r,
    run anyTime lowerMaxIdle initial = Some r
    ∧ NoDup (holders (world r))
    ∧ NoDup (ptr <$> owned (world r)).
Proof.
  eexists. split; [vm_compute; reflexivity|].
  edestruct (held_drivers_are_live_and_unique lowerMaxIdle) as (Hh & Hp & _).
  - vm_compute. reflexivity.
  - split; [exact Hh|exact Hp].
Defined.

(** After [lowerMaxIdle] driver 0 is idle and alive: a further acquisition
    returns, and so does a change of its state. *)
Lemma every_possible_step_has_a_result_witness :
  ∃ r,
    run anyTime lowerMaxIdle initial = Some r
    ∧ is_Some (step (Acquire "p") (world r))
    ∧ is_Some (step (DriverState 0 Disconnected) (world r)).
Proof.
  eexists. split; [vm_compute; reflexivity|]. split.
  - eapply (every_possible_step_has_a_result lowerMaxIdle).
    + vm_compute. reflexivity.
    + exact I.
  - eapply (every_possible_step_has_a_result lowerMaxIdle).
    + vm_compute. reflexivity.
    + eexists. vm_compute. reflexivity.
Defined.

Lemma currentConnections_counts_idle_and_checked_out_witness :
  ∃ r n,
    run anyTime busyDay initial = Some r
    ∧ currentConnections "p" (world r) = Some (mkResult n (world r) [])
    ∧ 0 ≤ n.
Proof.
  eexists.
  edestruct (currentConnections_counts_idle_and_checked_out busyDay)
    as (n & Hn & Hpos & _).
  - vm_compute. reflexivity.
  - exists n. split; [vm_compute; reflexivity|]. split; [exact Hn|exact Hpos].
Defined.
